(** * ndn-cxx security core: certificate codec, in-memory public-info store,
      always-accept validator

    A shallow embedding of
      - [src/security/certificate.cpp]            (module [Cert]),
      - [src/security/sec-public-info-memory.cpp] (module [Store]),
      - [src/security/validator-null.hpp]         (module [NullPolicy]),
    and of what these three files call: the ASN.1 framing of Crypto++
    (module [Asn1]), time points and their text form (module [Time]), names
    (module [NdnName]) and the members of a certificate (module [Members]).
    The second half of the file states and proves the properties that the
    specification gives for them. *)

From Stdlib Require Import ZArith NArith Lia.
From Stdlib.Strings Require Import Byte Ascii String.
From stdpp Require Import gmap strings list.

Local Open Scope string_scope.
Local Open Scope list_scope.

(** ** ASN.1 framing

    certificate.cpp writes through Crypto++'s [DERSequenceEncoder] and reads
    through its [BERSequenceDecoder].  Crypto++ is a library the repository
    links against; what follows is the part of its asn.cpp that
    [Certificate::encode] and [Certificate::decode] run through. *)
Module Asn1.

(** Decoding errors.  Crypto++ throws [BERDecodeErr]; a timestamp whose
    text is not a date and time is reported by the time utilities.  Both
    are the specification's [FormatError]. *)
Inductive Error := BERDecodeErr | TimeFormatErr.

Definition byte_of_N (n : N) : byte :=
  default x00 (Byte.of_N (n mod 256)).

(** [lword]: an unsigned 64-bit length. *)
Definition lword (n : N) : N := n mod 2 ^ 64.

Definition SEQUENCE_CONSTRUCTED : byte := x30.
Definition GENERALIZED_TIME : byte := x18.

(** *** Writing *)

(** [BytePrecision]: the number of bytes needed to hold [n]. *)
Definition BytePrecision (n : N) : N := (N.size n + 7) / 8.

(** [for (j = BytePrecision(length); j; --j) Put(byte(length >> (j-1)*8))]. *)
Fixpoint put_big_endian (j : nat) (n : N) : list byte :=
  match j with
  | O => []
  | S j' => byte_of_N (N.shiftr n (8 * N.of_nat j')) :: put_big_endian j' n
  end.

Definition DERLengthEncode (length : N) : list byte :=
  if (length <=? 127)%N then [byte_of_N length]
  else byte_of_N (N.lor (BytePrecision length) 128)
         :: put_big_endian (N.to_nat (BytePrecision length)) length.

(** A [DERSequenceEncoder] collects what is written into it and, at
    [MessageEnd], emits the tag, the length and the collected bytes. *)
Definition DERSequenceEncoder (body : list byte) : list byte :=
  SEQUENCE_CONSTRUCTED
    :: DERLengthEncode (lword (N.of_nat (length body))) ++ body.

(** *** Reading *)

(** A [BERGeneralDecoder] that has been opened and not yet closed: its
    remaining length when the length is definite. *)
Inductive Frame := Definite (m_length : N) | Indefinite.

(** The source and the decoders opened on it, innermost first. *)
Record BER := mkBER {
  input : list byte;
  frames : list Frame }.

(** [StringSource source(buf, size, true)]. *)
Definition StringSource (content : list byte) : BER := mkBER content [].

(** [if (m_definiteLength && transferBytes > m_length)
       transferBytes = m_length]. *)
Definition cap (f : Frame) (transferBytes : N) : N :=
  match f with
  | Definite m => N.min transferBytes m
  | Indefinite => transferBytes
  end.

(** The bytes a request for [k] bytes obtains: every open decoder caps the
    request, the source gives what it has. *)
Definition retrievable (k : N) (s : BER) : N :=
  N.min (fold_right cap k (frames s)) (N.of_nat (length (input s))).

(** [ReduceLength]. *)
Definition reduce (delta : N) (f : Frame) : Frame :=
  match f with
  | Definite m => Definite (m - delta)
  | Indefinite => Indefinite
  end.

(** The state after [n] bytes were taken through the innermost decoder. *)
Definition advance (n : N) (s : BER) : BER :=
  mkBER (drop (N.to_nat n) (input s)) (map (reduce n) (frames s)).

(** Decoders: a state and error monad over [BER]. *)
Definition Dec (A : Type) : Type := BER -> Error + (A * BER).

Definition dec_ret {A} (x : A) : Dec A := fun s => inr (x, s).
Definition dec_bind {A B} (m : Dec A) (f : A -> Dec B) : Dec B :=
  fun s => match m s with
           | inl e => inl e
           | inr (x, s') => f x s'
           end.
Definition BERDecodeError {A} : Dec A := fun _ => inl BERDecodeErr.

Declare Scope dec_scope.
Delimit Scope dec_scope with dec.
Bind Scope dec_scope with Dec.
Notation "x <- m ;; k" := (dec_bind m (fun x => k))
  (at level 20, m at level 99, k at level 200) : dec_scope.
Notation "m ;; k" := (dec_bind m (fun _ => k))
  (at level 100, k at level 200, right associativity) : dec_scope.
Local Open Scope dec_scope.

(** [Get(buf, k)]: the bytes obtained, possibly fewer than [k]. *)
Definition Get (k : N) : Dec (list byte) := fun s =>
  let n := retrievable k s in
  inr (take (N.to_nat n) (input s), advance n s).

(** [Peek]-style reads leave the state as it is. *)
Definition Peek (k : N) (s : BER) : list byte :=
  take (N.to_nat (retrievable k s)) (input s).

(** [if (!bt.Get(b)) BERDecodeError()]. *)
Definition GetByte : Dec byte :=
  bs <- Get 1 ;;
  match bs with
  | [b] => dec_ret b
  | _ => BERDecodeError
  end.

(** The loop of [BERLengthDecode] over the length bytes. *)
Fixpoint get_length_bytes (lengthBytes : nat) (length : N) : Dec N :=
  match lengthBytes with
  | O => dec_ret length
  | S k =>
      if negb (N.shiftr length 56 =? 0)%N
      then BERDecodeError (* length about to overflow *)
      else b <- GetByte ;;
           get_length_bytes k (N.lor (N.shiftl length 8) (Byte.to_N b))
  end.

(** [BERLengthDecode(bt, length, definiteLength)]: the frame that a
    decoder with this length would be. *)
Definition BERLengthDecode : Dec Frame :=
  b <- GetByte ;;
  if negb (N.testbit (Byte.to_N b) 7) then dec_ret (Definite (Byte.to_N b))
  else
    let lengthBytes := N.land (Byte.to_N b) 127 in
    if (lengthBytes =? 0)%N then dec_ret Indefinite
    else length <- get_length_bytes (N.to_nat lengthBytes) 0 ;;
         dec_ret (Definite length).

(** [BERLengthDecode(bt, length)]: a definite length or an error. *)
Definition BERLengthDecode_definite : Dec N :=
  f <- BERLengthDecode ;;
  match f with
  | Definite n => dec_ret n
  | Indefinite => BERDecodeError
  end.

Definition push (f : Frame) : Dec unit := fun s =>
  inr (tt, mkBER (input s) (f :: frames s)).

(** [BERSequenceDecoder seq(in)], that is [BERGeneralDecoder::Init] with
    the tag of a constructed sequence. *)
Definition BERSequenceDecoder : Dec unit :=
  b <- GetByte ;;
  if Byte.eqb b SEQUENCE_CONSTRUCTED
  then f <- BERLengthDecode ;; push f
  else BERDecodeError.

(** [EndReached] of the innermost decoder. *)
Definition EndReached (s : BER) : bool :=
  match frames s with
  | Definite m :: _ => (m =? 0)%N
  | Indefinite :: _ =>
      (* check end-of-content octets *)
      match Peek 2 s with
      | [b1; b2] => Byte.eqb b1 x00 && Byte.eqb b2 x00
      | _ => false
      end
  | [] => match input s with [] => true | _ => false end
  end.

(** [MessageEnd] of the innermost decoder, which is closed by it. *)
Definition MessageEnd : Dec unit := fun s =>
  match frames s with
  | Definite m :: outer =>
      if (m =? 0)%N then inr (tt, mkBER (input s) outer)
      else inl BERDecodeErr
  | Indefinite :: outer =>
      (* remove end-of-content octets *)
      match Get 2 (mkBER (input s) outer) with
      | inr ([b1; b2], s') =>
          if Byte.eqb b1 x00 && Byte.eqb b2 x00 then inr (tt, s')
          else inl BERDecodeErr
      | _ => inl BERDecodeErr
      end
  | [] => inl BERDecodeErr
  end.

(** [DEREncodeTextString] and [DEREncodeOctetString]: tag, length, bytes. *)
Definition DEREncodeString (asnTag : byte) (str : list byte) : list byte :=
  asnTag :: DERLengthEncode (lword (N.of_nat (length str))) ++ str.

(** [BERDecodeTextString] and [BERDecodeOctetString]. *)
Definition BERDecodeString (asnTag : byte) : Dec (list byte) :=
  b <- GetByte ;;
  if Byte.eqb b asnTag then
    bc <- BERLengthDecode_definite ;;
    temp <- Get bc ;;
    if (N.of_nat (length temp) =? bc)%N then dec_ret temp
    else BERDecodeError
  else BERDecodeError.

(** *** What the certificate's members offer

    [CertificateSubjectDescription], [CertificateExtension] and
    [PublicKey] are declared outside the sources at hand.  The certificate
    uses their [encode(out)] and their [decode(in)] (or decoding
    constructor).  A [decodeFrom] that throws yields no value, so the member
    it was to fill is as before.  A successful [decodeFrom] has taken at
    least one byte: every ASN.1 value starts with a tag. *)
Class Asn1 (A : Type) := {
  encodeTo : A -> list byte;
  decodeFrom : Dec A;
  decodeFrom_consumes : forall s x s',
    decodeFrom s = inr (x, s') ->
    (length (input s') < length (input s))%nat }.

(** The state [s] has the bytes [bs] next, and every open decoder of
    definite length has room for them. *)
Definition fits (n : N) (f : Frame) : Prop :=
  match f with
  | Definite m => (n <= m)%N
  | Indefinite => True
  end.

Definition holds (bs : list byte) (s : BER) : Prop :=
  (exists rest, input s = bs ++ rest)
  /\ Forall (fits (N.of_nat (length bs))) (frames s).

(** "Self-delimiting": what was written by [encodeTo] is read back by
    [decodeFrom], which takes those bytes and no more. *)
Class SelfDelimiting (A : Type) `{Asn1 A} (wf : A -> Prop) :=
  decodeFrom_encodeTo : forall (x : A) (s : BER),
    wf x -> holds (encodeTo x) s ->
    decodeFrom s = inr (x, advance (N.of_nat (length (encodeTo x))) s).

End Asn1.

(** ** Time points and their text form *)
Module Time.
Import Asn1.
Local Open Scope Z_scope.
Local Open Scope dec_scope.

(** Modelled from the spec: util/time.hpp is not part of the sources.  A
    [time::system_clock::TimePoint] is an "absolute timestamp": a count of
    clock ticks since the epoch, 1970-01-01 00:00:00 UTC.  The clock of the
    model ticks [ticks_per_second] times a second. *)
Definition TimePoint : Type := Z.
Definition ticks_per_second : Z := 1000000000.

(** Modelled from the spec: the "max representable instant" and the "min
    representable instant" of a 64-bit tick count. *)
Definition TimePoint_max : TimePoint := 2 ^ 63 - 1.
Definition TimePoint_min : TimePoint := - 2 ^ 63.

(** The proleptic Gregorian calendar, by days since the epoch. *)
Definition is_leap (y : Z) : bool :=
  (y mod 4 =? 0) && (negb (y mod 100 =? 0) || (y mod 400 =? 0)).

Definition days_in_month (y m : Z) : Z :=
  if m =? 2 then (if is_leap y then 29 else 28)
  else if (m =? 4) || (m =? 6) || (m =? 9) || (m =? 11) then 30
  else 31.

(** Day of the 400-year era from year of the era, month and day; the year
    of the era starts on the first of March. *)
Definition day_of_era (yoe m d : Z) : Z :=
  let mp := if 2 <? m then m - 3 else m + 9 in
  let doy := (153 * mp + 2) / 5 + d - 1 in
  yoe * 365 + yoe / 4 - yoe / 100 + doy.

Definition days_from_civil (y m d : Z) : Z :=
  let y := if m <=? 2 then y - 1 else y in
  let era := y / 400 in
  let yoe := y mod 400 in
  era * 146097 + day_of_era yoe m d - 719468.

(** Year of the era, month and day from the day of the era. *)
Definition date_of_era_day (doe : Z) : Z * Z * Z :=
  let yoe := (doe - doe / 1460 + doe / 36524 - doe / 146096) / 365 in
  let doy := doe - (365 * yoe + yoe / 4 - yoe / 100) in
  let mp := (5 * doy + 2) / 153 in
  let d := doy - (153 * mp + 2) / 5 + 1 in
  let m := if mp <? 10 then mp + 3 else mp - 9 in
  (yoe, m, d).

Definition civil_from_days (z : Z) : Z * Z * Z :=
  let z := z + 719468 in
  let era := z / 146097 in
  let doe := z mod 146097 in
  let '(yoe, m, d) := date_of_era_day doe in
  let y := yoe + era * 400 in
  (if m <=? 2 then y + 1 else y, m, d).

(** Decimal digits as text. *)
Definition digit (d : Z) : byte := byte_of_N (48 + Z.to_N (d mod 10)).
Definition two_digits (n : Z) : list byte := [digit (n / 10); digit n].
Definition four_digits (n : Z) : list byte :=
  [digit (n / 1000); digit (n / 100); digit (n / 10); digit n].

Definition digit_value (b : byte) : option Z :=
  let n := Z.of_N (Byte.to_N b) in
  if (48 <=? n) && (n <=? 57) then Some (n - 48) else None.

Fixpoint number_from (acc : Z) (text : list byte) : option Z :=
  match text with
  | [] => Some acc
  | b :: text' => d ← digit_value b; number_from (acc * 10 + d) text'
  end.
Definition number (text : list byte) : option Z := number_from 0 text.

Definition letter_T : byte := x54.
Definition letter_Z : byte := x5a.

(** Modelled from the spec: [time::toIsoString] (util/time.hpp), up to the
    seconds: ["YYYYMMDDThhmmss"].  (The code consulted below looks at
    these fifteen characters only.) *)
Definition toIsoString (t : TimePoint) : list byte :=
  let secs := t / ticks_per_second in
  let days := secs / 86400 in
  let sod := secs mod 86400 in
  let '(y, m, d) := civil_from_days days in
  four_digits y ++ two_digits m ++ two_digits d ++ [letter_T]
    ++ two_digits (sod / 3600) ++ two_digits (sod mod 3600 / 60)
    ++ two_digits (sod mod 60).

Definition valid_date_time (y m d hh mm ss : Z) : bool :=
  (1 <=? m) && (m <=? 12) && (1 <=? d) && (d <=? days_in_month y m)
  && (hh <? 24) && (mm <? 60) && (ss <? 60).

(** Modelled from the spec: [time::fromIsoString] (util/time.hpp) on the
    text ["YYYYMMDDThhmmss"]; a text that is not a date and a time of day
    is "not parseable". *)
Definition fromIsoString (text : list byte) : option TimePoint :=
  match text with
  | [y1; y2; y3; y4; m1; m2; d1; d2; t; h1; h2; n1; n2; s1; s2] =>
      if Byte.eqb t letter_T then
        y ← number [y1; y2; y3; y4];
        m ← number [m1; m2];
        d ← number [d1; d2];
        hh ← number [h1; h2];
        mm ← number [n1; n2];
        ss ← number [s1; s2];
        if valid_date_time y m d hh mm ss
        then Some ((days_from_civil y m d * 86400
                    + hh * 3600 + mm * 60 + ss) * ticks_per_second)
        else None
      else None
  | _ => None
  end.

(** [std::string::substr(pos, n)]. *)
Definition substr (pos n : nat) (text : list byte) : list byte :=
  take n (drop pos text).

(** Modelled from the spec: [DEREncodeGeneralTime] (encoding/cryptopp/
    asn_ext.cpp), the "canonical generalized-time text form" of a
    timestamp: tag, length, ["YYYYMMDDhhmmssZ"]. *)
Definition DEREncodeGeneralTime (time : TimePoint) : list byte :=
  let str := toIsoString time in
  let asn1time := substr 0 8 str ++ substr 9 6 str ++ [letter_Z] in
  GENERALIZED_TIME
    :: DERLengthEncode (lword (N.of_nat (length asn1time))) ++ asn1time.

(** Modelled from the spec: [BERDecodeTime] (encoding/cryptopp/
    asn_ext.cpp), the mirror of [DEREncodeGeneralTime]. *)
Definition BERDecodeTime : Dec TimePoint :=
  b <- GetByte ;;
  if Byte.eqb b GENERALIZED_TIME then
    bc <- BERLengthDecode_definite ;;
    time_str <- Get bc ;;
    if (N.of_nat (length time_str) =? bc)%N then
      match fromIsoString
              (substr 0 8 time_str ++ [letter_T] ++ substr 8 6 time_str)
      with
      | Some time => dec_ret time
      | None => fun _ => inl TimeFormatErr
      end
    else BERDecodeError
  else BERDecodeError.

(** The timestamps that the text form can carry: a whole number of
    seconds, in the years 0000 to 9999. *)
Definition representable (t : TimePoint) : Prop :=
  t mod ticks_per_second = 0
  /\ -62167219200 <= t / ticks_per_second <= 253402300799.

End Time.

(** ** Names

    [Name] (name.hpp) is used by the store through [toUri], [getPrefix(-1)]
    and the constructor from a URI string. *)
Module NdnName.

(** Modelled from the spec: name.hpp is not part of the sources.  A name is
    a "hierarchical path-like identifier": the list of its components. The
    percent-escaping that the URI form applies to component bytes is left
    out, so a component is written into the URI as it is. *)
Definition Name : Type := list string.

Fixpoint uri_of_components (n : list string) : string :=
  match n with
  | [] => ""
  | c :: n' => "/" +:+ c +:+ uri_of_components n'
  end.

(** [Name::toUri]: ["/"] for the empty name, otherwise every component
    preceded by a slash. *)
Definition toUri (n : Name) : string :=
  match n with
  | [] => "/"
  | _ => uri_of_components n
  end.

(** [Name::getPrefix(-1)]: the name without its last component. *)
Definition getPrefix_m1 (n : Name) : Name := removelast n.

Definition is_slash (a : ascii) : bool := bool_decide (a = "/"%char).

(** Splitting a URI at slashes; [cur] is the component read so far and
    empty components are skipped. *)
Fixpoint split_uri (cur : string) (uri : string) : list string :=
  match uri with
  | EmptyString => if bool_decide (cur = "") then [] else [cur]
  | String a rest =>
      if is_slash a
      then (if bool_decide (cur = "") then split_uri "" rest
            else cur :: split_uri "" rest)
      else split_uri (cur +:+ String a "") rest
  end.

(** [Name(const std::string& uri)]. *)
Definition Name_of_uri (uri : string) : Name := split_uri "" uri.

Fixpoint slash_free (s : string) : bool :=
  match s with
  | EmptyString => true
  | String a rest => negb (is_slash a) && slash_free rest
  end.

(** The names whose URI is read back without the escaping the model leaves
    out: no component is empty or contains a slash. *)
Definition plain_name (n : Name) : Prop :=
  Forall (fun c => c <> "" /\ slash_free c = true) n.

End NdnName.

(** ** Certificates (certificate.cpp) *)
Module Cert.
Import Asn1 Time NdnName.

(** [MetaInfo::TYPE_*]. *)
Inductive ContentType := TYPE_DEFAULT | TYPE_LINK | TYPE_KEY.

Section Certificate.
Context {SubjectDescription Extension PublicKey : Type}.
Context `{!Asn1 SubjectDescription, !Asn1 Extension, !Asn1 PublicKey}.
(** [PublicKey()]. *)
Variable PublicKey_default : PublicKey.

(** A [Certificate] is a [Data] (of which the name, the content and the
    content type matter here) with the decoded fields. *)
Record Certificate := mkCertificate {
  getName : Name;
  getContent : list byte;
  getContentType : ContentType;
  m_notBefore : TimePoint;
  m_notAfter : TimePoint;
  m_subjectDescriptionList : list SubjectDescription;
  m_key : PublicKey;
  m_extensionList : list Extension }.

(** [Certificate::Certificate()]. *)
Definition Certificate_default : Certificate :=
  mkCertificate [] [] TYPE_DEFAULT TimePoint_max TimePoint_min
                [] PublicKey_default [].

(** [isTooEarly] and [isTooLate]; [now] is [time::system_clock::now()]. *)
Definition isTooEarly (now : TimePoint) (c : Certificate) : bool :=
  if (now <? m_notBefore c)%Z then true else false.

Definition isTooLate (now : TimePoint) (c : Certificate) : bool :=
  if (now >? m_notAfter c)%Z then true else false.

(** Assignments to single members. *)
Definition setContent (bytes : list byte) (c : Certificate) :=
  mkCertificate (getName c) bytes (getContentType c) (m_notBefore c)
    (m_notAfter c) (m_subjectDescriptionList c) (m_key c)
    (m_extensionList c).
Definition setContentType (t : ContentType) (c : Certificate) :=
  mkCertificate (getName c) (getContent c) t (m_notBefore c)
    (m_notAfter c) (m_subjectDescriptionList c) (m_key c)
    (m_extensionList c).
Definition set_notBefore (t : TimePoint) (c : Certificate) :=
  mkCertificate (getName c) (getContent c) (getContentType c) t
    (m_notAfter c) (m_subjectDescriptionList c) (m_key c)
    (m_extensionList c).
Definition set_notAfter (t : TimePoint) (c : Certificate) :=
  mkCertificate (getName c) (getContent c) (getContentType c)
    (m_notBefore c) t (m_subjectDescriptionList c) (m_key c)
    (m_extensionList c).
Definition set_subjectDescriptionList (l : list SubjectDescription)
    (c : Certificate) :=
  mkCertificate (getName c) (getContent c) (getContentType c)
    (m_notBefore c) (m_notAfter c) l (m_key c) (m_extensionList c).
Definition set_key (k : PublicKey) (c : Certificate) :=
  mkCertificate (getName c) (getContent c) (getContentType c)
    (m_notBefore c) (m_notAfter c) (m_subjectDescriptionList c) k
    (m_extensionList c).
Definition set_extensionList (l : list Extension) (c : Certificate) :=
  mkCertificate (getName c) (getContent c) (getContentType c)
    (m_notBefore c) (m_notAfter c) (m_subjectDescriptionList c)
    (m_key c) l.

(** *** [Certificate::encode] *)

(** What [encode] writes into [os]. *)
Definition encode_idCert (c : Certificate) : list byte :=
  DERSequenceEncoder (
    (* Validity *)
    DERSequenceEncoder (
      DEREncodeGeneralTime (m_notBefore c)
      ++ DEREncodeGeneralTime (m_notAfter c))
    (* Name *)
    ++ DERSequenceEncoder (
         flat_map encodeTo (m_subjectDescriptionList c))
    (* SubjectPublicKeyInfo *)
    ++ encodeTo (m_key c)
    (* Extensions *)
    ++ match m_extensionList c with
       | [] => []
       | _ => DERSequenceEncoder (flat_map encodeTo (m_extensionList c))
       end).

Definition encode (c : Certificate) : Certificate :=
  setContentType TYPE_KEY (setContent (encode_idCert c) c).

(** *** [Certificate::decode]

    [decode] assigns to the members while it reads, and an exception
    leaves the assignments made so far in place: a step maps the
    certificate and the decoder state to the certificate afterwards and
    either the error thrown or a result and the next decoder state. *)
Definition M (A : Type) : Type :=
  Certificate -> BER -> Certificate * (Error + (A * BER)).

Definition m_ret {A} (x : A) : M A := fun c s => (c, inr (x, s)).
Definition m_bind {A B} (m : M A) (f : A -> M B) : M B := fun c s =>
  match m c s with
  | (c', inl e) => (c', inl e)
  | (c', inr (x, s')) => f x c' s'
  end.
(** A read that does not touch the certificate. *)
Definition lift {A} (d : Dec A) : M A := fun c s => (c, d s).
(** An assignment to a member. *)
Definition assign (f : Certificate -> Certificate) : M unit :=
  fun c s => (f c, inr (tt, s)).

Declare Scope cert_scope.
Delimit Scope cert_scope with cert.
Bind Scope cert_scope with M.
Notation "x <- m ;; k" := (m_bind m (fun x => k))
  (at level 20, m at level 99, k at level 200) : cert_scope.
Notation "m ;; k" := (m_bind m (fun _ => k))
  (at level 100, k at level 200, right associativity) : cert_scope.
Local Open Scope cert_scope.

(** [while (!seq.EndReached()) body].  Every round of the two loops of
    [decode] reads an entry and so shortens the input; [fuel] is one more
    than the length of the input when the loop is entered. *)
Fixpoint while_not_EndReached (fuel : nat) (body : M unit) : M unit :=
  fun c s =>
    match fuel with
    | O => (c, inl BERDecodeErr)
    | S fuel' =>
        if EndReached s then (c, inr (tt, s))
        else (body ;; while_not_EndReached fuel' body) c s
    end.

Definition while_loop (body : M unit) : M unit := fun c s =>
  while_not_EndReached (S (length (input s))) body c s.

Definition push_back_subjectDescription (d : SubjectDescription)
    (c : Certificate) : Certificate :=
  set_subjectDescriptionList (m_subjectDescriptionList c ++ [d]) c.

Definition push_back_extension (e : Extension) (c : Certificate)
    : Certificate :=
  set_extensionList (m_extensionList c ++ [e]) c.

Definition decode_idCert : M unit :=
  lift BERSequenceDecoder ;;                         (* idCert *)
    lift BERSequenceDecoder ;;                       (* validity *)
      (t <- lift BERDecodeTime ;; assign (set_notBefore t)) ;;
      (t <- lift BERDecodeTime ;; assign (set_notAfter t)) ;;
    lift MessageEnd ;;
    assign (set_subjectDescriptionList []) ;;
    lift BERSequenceDecoder ;;                       (* name *)
      while_loop
        (d <- lift decodeFrom ;;
         assign (push_back_subjectDescription d)) ;;
    lift MessageEnd ;;
    (k <- lift decodeFrom ;; assign (set_key k)) ;;
    assign (set_extensionList []) ;;
    (fun c idCert =>
       if negb (EndReached idCert)
       then (lift BERSequenceDecoder ;;              (* extensions *)
               while_loop
                 (e <- lift decodeFrom ;;
                  assign (push_back_extension e)) ;;
             lift MessageEnd) c idCert
       else m_ret tt c idCert) ;;
  lift MessageEnd.

(** [decode]: the certificate after the call, and whether it threw. *)
Definition decode (c : Certificate) : Certificate * (Error + unit) :=
  let source := StringSource (getContent c) in
  match decode_idCert c source with
  | (c', inl e) => (c', inl e)
  | (c', inr _) => (c', inr tt)
  end.

(** [Certificate::Certificate(const Data& data)]: copies the data and
    decodes; when [decode] throws there is no certificate. *)
Definition Certificate_of_Data (name : Name) (content : list byte)
    (type : ContentType) : Error + Certificate :=
  match decode (mkCertificate name content type 0%Z 0%Z
                              [] PublicKey_default []) with
  | (_, inl e) => inl e
  | (c, inr _) => inr c
  end.
End Certificate.

Arguments Certificate : clear implicits.

End Cert.

(** ** The members of a certificate

    The classes of the subject descriptions, the extensions and the public
    key, to the extent the certificate codec needs them. *)
Module Members.
Import Asn1.
Local Open Scope dec_scope.

Definition BOOLEAN : byte := x01.
Definition OCTET_STRING : byte := x04.
Definition OBJECT_IDENTIFIER : byte := x06.
Definition PRINTABLE_STRING : byte := x13.

(** Modelled from the spec: certificate-subject-description.hpp is not part
    of the sources.  A subject description is an "(attribute-oid,
    string-value) pair"; the object identifier is kept as the bytes of its
    encoding. *)
Record CertificateSubjectDescription := mkSubjectDescription {
  m_oid : list byte;
  m_value : list byte }.

(** Modelled from the spec: the entry is "self-delimiting", a sequence of
    the identifier and the string. *)
Definition SubjectDescription_encode (d : CertificateSubjectDescription)
    : list byte :=
  DERSequenceEncoder (
    DEREncodeString OBJECT_IDENTIFIER (m_oid d)
    ++ DEREncodeString PRINTABLE_STRING (m_value d)).

Definition SubjectDescription_decode : Dec CertificateSubjectDescription :=
  BERSequenceDecoder ;;
    oid <- BERDecodeString OBJECT_IDENTIFIER ;;
    value <- BERDecodeString PRINTABLE_STRING ;;
  MessageEnd ;;
  dec_ret (mkSubjectDescription oid value).

(** Modelled from the spec: certificate-extension.hpp is not part of the
    sources.  An extension is an "(extension-oid, critical-flag,
    opaque-value) triple". *)
Record CertificateExtension := mkExtension {
  m_extensionId : list byte;
  m_isCritical : bool;
  m_extensionValue : list byte }.

Definition flag_bytes (b : bool) : list byte := [if b then x01 else x00].
Definition flag_of_bytes (bs : list byte) : bool :=
  existsb (fun b => negb (Byte.eqb b x00)) bs.

Definition Extension_encode (e : CertificateExtension) : list byte :=
  DERSequenceEncoder (
    DEREncodeString OBJECT_IDENTIFIER (m_extensionId e)
    ++ DEREncodeString BOOLEAN (flag_bytes (m_isCritical e))
    ++ DEREncodeString OCTET_STRING (m_extensionValue e)).

Definition Extension_decode : Dec CertificateExtension :=
  BERSequenceDecoder ;;
    oid <- BERDecodeString OBJECT_IDENTIFIER ;;
    critical <- BERDecodeString BOOLEAN ;;
    value <- BERDecodeString OCTET_STRING ;;
  MessageEnd ;;
  dec_ret (mkExtension oid (flag_of_bytes critical) value).

(** Modelled from the spec: public-key.hpp is not part of the sources.  The
    public key info is "opaque encoded public key bytes": the encoding of the
    SubjectPublicKeyInfo sequence as a whole. *)
Record PublicKey := mkPublicKey { key_bytes : list byte }.

(** [PublicKey()]. *)
Definition PublicKey_default : PublicKey := mkPublicKey [].

Definition PublicKey_encode (k : PublicKey) : list byte := key_bytes k.

(** The decoder copies one sequence as it is. *)
Definition PublicKey_decode : Dec PublicKey :=
  BERSequenceDecoder ;;
    body <- (fun s =>
               match frames s with
               | Definite remaining :: _ => Get remaining s
               | _ => inl BERDecodeErr
               end) ;;
  MessageEnd ;;
  dec_ret (mkPublicKey (DERSequenceEncoder body)).

(** A length that fits a 64-bit [lword]. *)
Definition small (bs : list byte) : Prop :=
  (N.of_nat (length bs) < 2 ^ 64)%N.

Definition wf_SubjectDescription (d : CertificateSubjectDescription) : Prop :=
  small (m_oid d) /\ small (m_value d) /\ small (SubjectDescription_encode d).

Definition wf_Extension (e : CertificateExtension) : Prop :=
  small (m_extensionId e) /\ small (m_extensionValue e)
  /\ small (Extension_encode e).

(** The key info is present: the bytes are one sequence. *)
Definition wf_PublicKey (k : PublicKey) : Prop :=
  exists body, small body /\ key_bytes k = DERSequenceEncoder body.

End Members.

(** ** The in-memory public-info store (sec-public-info-memory.cpp) *)
Module Store.
Import NdnName.

(** [KeyType] (security-common.hpp); the store itself names
    [KEY_TYPE_RSA] only. *)
Inductive KeyType := KEY_TYPE_RSA | KEY_TYPE_ECDSA | KEY_TYPE_AES.

(** [SecPublicInfoMemory::Error]. *)
Inductive Error := Err (what : string).

Section Memory.
(** [PublicKey] and [IdentityCertificate] are declared outside the
    sources at hand; the store only copies them around and reads three
    fields of a certificate. *)
Context {PublicKey IdentityCertificate : Type}.
Variable getName : IdentityCertificate -> Name.
Variable getPublicKeyName : IdentityCertificate -> Name.
Variable getPublicKeyInfo : IdentityCertificate -> PublicKey.

Record KeyRecord := mkKeyRecord {
  getKeyType : KeyType;
  getKey : PublicKey }.

Record SecPublicInfoMemory := mkStore {
  m_identityStore : list string;
  m_keyStore : gmap string KeyRecord;
  m_certificateStore : gmap string IdentityCertificate;
  m_defaultIdentity : string;
  m_defaultKeyName : Name;
  m_defaultCert : Name }.

Definition empty_store : SecPublicInfoMemory :=
  mkStore [] ∅ ∅ "" [] [].

(** [std::find(begin, end, uri) != end]. *)
Definition found (uri : string) (l : list string) : bool :=
  bool_decide (uri ∈ l).

Definition doesIdentityExist (identityName : Name)
    (st : SecPublicInfoMemory) : bool :=
  let identityUri := toUri identityName in
  found identityUri (m_identityStore st).

Definition addIdentity (identityName : Name)
    (st : SecPublicInfoMemory) : SecPublicInfoMemory :=
  let identityUri := toUri identityName in
  if found identityUri (m_identityStore st) then st
  else mkStore (m_identityStore st ++ [identityUri])
               (m_keyStore st) (m_certificateStore st)
               (m_defaultIdentity st) (m_defaultKeyName st)
               (m_defaultCert st).

Definition doesPublicKeyExist (keyName : Name)
    (st : SecPublicInfoMemory) : bool :=
  bool_decide (is_Some (m_keyStore st !! toUri keyName)).

Definition addPublicKey (keyName : Name) (keyType : KeyType)
    (publicKey : PublicKey) (st : SecPublicInfoMemory)
    : SecPublicInfoMemory :=
  let identityName := getPrefix_m1 keyName in
  let st := addIdentity identityName st in
  mkStore (m_identityStore st)
          (<[toUri keyName := mkKeyRecord keyType publicKey]>
             (m_keyStore st))
          (m_certificateStore st)
          (m_defaultIdentity st) (m_defaultKeyName st) (m_defaultCert st).

(** A getter that may throw: the store after the call and either the
    error thrown or the value returned. *)
Definition getPublicKey (keyName : Name) (st : SecPublicInfoMemory)
    : SecPublicInfoMemory * (Error + PublicKey) :=
  match m_keyStore st !! toUri keyName with
  | None =>
      (st, inl (Err ("SecPublicInfoMemory::getPublicKey  "
                     +:+ toUri keyName)))
  | Some record => (st, inr (getKey record))
  end.

Definition doesCertificateExist (certificateName : Name)
    (st : SecPublicInfoMemory) : bool :=
  bool_decide (is_Some (m_certificateStore st !! toUri certificateName)).

Definition addCertificate (certificate : IdentityCertificate)
    (st : SecPublicInfoMemory) : SecPublicInfoMemory :=
  let certificateName := getName certificate in
  let keyName := getPublicKeyName certificate in
  let identity := getPrefix_m1 keyName in
  let st := addIdentity identity st in
  let st := addPublicKey keyName KEY_TYPE_RSA
                         (getPublicKeyInfo certificate) st in
  mkStore (m_identityStore st) (m_keyStore st)
          (<[toUri certificateName := certificate]>
             (m_certificateStore st))
          (m_defaultIdentity st) (m_defaultKeyName st) (m_defaultCert st).

Definition getCertificate (certificateName : Name)
    (st : SecPublicInfoMemory)
    : SecPublicInfoMemory * (Error + IdentityCertificate) :=
  match m_certificateStore st !! toUri certificateName with
  | None =>
      (st, inl (Err ("SecPublicInfoMemory::getCertificate  "
                     +:+ toUri certificateName)))
  | Some record => (st, inr record)
  end.

Definition getDefaultIdentity (st : SecPublicInfoMemory) : Name :=
  Name_of_uri (m_defaultIdentity st).

Definition setDefaultIdentityInternal (identityName : Name)
    (st : SecPublicInfoMemory) : SecPublicInfoMemory :=
  let identityUri := toUri identityName in
  mkStore (m_identityStore st) (m_keyStore st) (m_certificateStore st)
          (if found identityUri (m_identityStore st)
           then identityUri
           else (* The identity doesn't exist, so clear the default. *)
                "")
          (m_defaultKeyName st) (m_defaultCert st).

Definition getDefaultKeyNameForIdentity (identityName : Name)
    (st : SecPublicInfoMemory) : Name :=
  m_defaultKeyName st.

Definition setDefaultKeyNameForIdentityInternal (keyName : Name)
    (st : SecPublicInfoMemory) : SecPublicInfoMemory :=
  mkStore (m_identityStore st) (m_keyStore st) (m_certificateStore st)
          (m_defaultIdentity st) keyName (m_defaultCert st).

Definition getDefaultCertificateNameForKey (keyName : Name)
    (st : SecPublicInfoMemory) : Name :=
  m_defaultCert st.

Definition setDefaultCertificateNameForKeyInternal
    (certificateName : Name) (st : SecPublicInfoMemory)
    : SecPublicInfoMemory :=
  mkStore (m_identityStore st) (m_keyStore st) (m_certificateStore st)
          (m_defaultIdentity st) (m_defaultKeyName st) certificateName.

(** The enumeration and deletion members only throw. *)
Definition not_implemented {A} (what : string) (st : SecPublicInfoMemory)
    : SecPublicInfoMemory * (Error + A) :=
  (st, inl (Err (what +:+ " not implemented"))).

Definition revokeIdentity :=
  @not_implemented bool "SecPublicInfoMemory::revokeIdentity".
Definition deleteCertificateInfo (certName : Name) :=
  @not_implemented unit "SecPublicInfoMemory::deleteCertificateInfo".
Definition deletePublicKeyInfo (keyName : Name) :=
  @not_implemented unit "SecPublicInfoMemory::deletePublicKeyInfo".
Definition deleteIdentityInfo (identityName : Name) :=
  @not_implemented unit "SecPublicInfoMemory::deleteIdentityInfo".

End Memory.

Arguments KeyRecord : clear implicits.
Arguments SecPublicInfoMemory : clear implicits.

End Store.

(** ** The always-accept validator (validator-null.hpp) *)
Module NullPolicy.

(** [Data] and [Interest] are classes with [shared_from_this()]: an object
    knows the shared pointers that own it.  [use_count] is their number;
    an object on the stack or held by value has none. *)
Record Object (T : Type) := mkObject {
  value : T;
  use_count : nat }.
Arguments mkObject {T}.
Arguments value {T}.
Arguments use_count {T}.

(** A [shared_ptr<const T>]: it points to an object. *)
Record shared_ptr (T : Type) := mk_shared_ptr { get : Object T }.
Arguments mk_shared_ptr {T}.
Arguments get {T}.

Inductive Exception := bad_weak_ptr.

(** [shared_from_this()]: a shared pointer to the object for an object
    that a shared pointer owns; [bad_weak_ptr] is thrown for another. *)
Definition shared_from_this {T} (object : Object T)
    : Exception + shared_ptr T :=
  match use_count object with
  | O => inl bad_weak_ptr
  | S _ => inr (mk_shared_ptr object)
  end.

(** What a continuation can be seen to do: it was called, with a pointer
    to an item. *)
Inductive Event (Item : Type) :=
| Validated (item : shared_ptr Item)
| ValidationFailed (item : shared_ptr Item).
Arguments Validated {Item}.
Arguments ValidationFailed {Item}.

Section Validator.
(** [Data], [Interest] and [ValidationRequest] are opaque to the policy.
    A continuation is a procedure on a shared pointer to an item; its
    effect is a change of the caller's world [W]. *)
Context {Data Interest ValidationRequest W : Type}.

Definition OnDataValidated := shared_ptr Data -> W -> W.
Definition OnDataValidationFailed := shared_ptr Data -> W -> W.
Definition OnInterestValidated := shared_ptr Interest -> W -> W.
Definition OnInterestValidationFailed := shared_ptr Interest -> W -> W.

(** [checkPolicy(const Data&, ...)]: the world and the [nextSteps] vector
    after the call, and whether the call returned or threw. *)
Definition checkPolicy_Data (data : Object Data) (nSteps : Z)
    (onValidated : OnDataValidated)
    (onValidationFailed : OnDataValidationFailed)
    (nextSteps : list ValidationRequest) (w : W)
    : W * list ValidationRequest * (Exception + unit) :=
  match shared_from_this data with
  | inl e => (w, nextSteps, inl e)
  | inr p => (onValidated p w, nextSteps, inr tt)
  end.

(** [checkPolicy(const Interest&, ...)]. *)
Definition checkPolicy_Interest (interest : Object Interest) (nSteps : Z)
    (onValidated : OnInterestValidated)
    (onValidationFailed : OnInterestValidationFailed)
    (nextSteps : list ValidationRequest) (w : W)
    : W * list ValidationRequest * (Exception + unit) :=
  match shared_from_this interest with
  | inl e => (w, nextSteps, inl e)
  | inr p => (onValidated p w, nextSteps, inr tt)
  end.
End Validator.

(** Continuations that only record that they were called. *)
Definition log_validated {Item} (item : shared_ptr Item)
    (w : list (Event Item)) :=
  w ++ [Validated item].
Definition log_failed {Item} (item : shared_ptr Item)
    (w : list (Event Item)) :=
  w ++ [ValidationFailed item].

End NullPolicy.

(** * Properties *)

(** ** ASN.1 framing *)
Module Asn1Facts.
Import Asn1.
Local Open Scope N_scope.
Local Open Scope dec_scope.

Lemma to_N_byte_of_N n : Byte.to_N (byte_of_N n) = n mod 256.
Proof.
  unfold byte_of_N. destruct (Byte.of_N (n mod 256)) as [b|] eqn:E.
  - now apply Byte.to_of_N.
  - apply Byte.of_N_None_iff in E.
    pose proof (N.mod_upper_bound n 256). lia.
Qed.

Lemma byte_of_N_to_N b : byte_of_N (Byte.to_N b) = b.
Proof.
  unfold byte_of_N. pose proof (Byte.to_N_bounded b).
  rewrite N.mod_small by lia. now rewrite Byte.of_to_N.
Qed.

Lemma byte_eqb_eq a b : Byte.eqb a b = true <-> a = b.
Proof.
  split; [apply Byte.byte_dec_bl | apply Byte.byte_dec_lb].
Qed.

Lemma byte_eqb_refl b : Byte.eqb b b = true.
Proof. now apply byte_eqb_eq. Qed.

Lemma dec_bind_run {A B} (m : Dec A) (f : A -> Dec B) s x s' :
  m s = inr (x, s') -> dec_bind m f s = f x s'.
Proof. unfold dec_bind. now intros ->. Qed.

(** *** Reading what is there *)

Lemma retrievable_fits k s :
  Forall (fits k) (frames s) -> k <= N.of_nat (length (input s)) ->
  retrievable k s = k.
Proof.
  unfold retrievable. intros Hf Hk.
  assert (fold_right cap k (frames s) = k) as ->; [|lia].
  induction Hf as [|f fs Hfit _ IH]; [reflexivity|].
  cbn [fold_right]. rewrite IH. destruct f; cbn in *; lia.
Qed.

Lemma holds_length bs s :
  holds bs s -> N.of_nat (length bs) <= N.of_nat (length (input s)).
Proof. intros [[rest ->] _]. rewrite length_app. lia. Qed.

Lemma Get_holds bs s :
  holds bs s ->
  Get (N.of_nat (length bs)) s
  = inr (bs, advance (N.of_nat (length bs)) s).
Proof.
  intros H. unfold Get.
  rewrite retrievable_fits; [|apply H|now apply holds_length].
  destruct H as [[rest ->] _]. rewrite Nat2N.id.
  now rewrite take_app_length.
Qed.

Lemma GetByte_holds b bs s :
  holds (b :: bs) s -> GetByte s = inr (b, advance 1 s).
Proof.
  intros H. unfold GetByte, dec_bind.
  assert (H1 : holds [b] s).
  { destruct H as [[rest Hin] Hf]. split; [now exists (bs ++ rest)|].
    eapply Forall_impl; [exact Hf|]. intros [m|]; cbn [fits length]; lia. }
  pose proof (Get_holds [b] s H1) as HG.
  change (N.of_nat (length [b])) with 1 in HG. now rewrite HG.
Qed.

Lemma advance_advance a b s : advance a (advance b s) = advance (b + a) s.
Proof.
  unfold advance. cbn [input frames]. f_equal.
  - rewrite drop_drop. f_equal. lia.
  - rewrite map_map. apply map_ext. intros [m|]; cbn; [f_equal; lia|easy].
Qed.

Lemma advance_0 s : advance 0 s = s.
Proof.
  destruct s as [i fs]. unfold advance. cbn. f_equal.
  rewrite <- (map_id fs) at 2. apply map_ext.
  intros [m|]; cbn; [f_equal; lia|easy].
Qed.

Lemma holds_app a b s :
  holds (a ++ b) s ->
  holds a s /\ holds b (advance (N.of_nat (length a)) s).
Proof.
  intros [[rest Hin] Hf]. rewrite length_app in Hf. split; split.
  - exists (b ++ rest). now rewrite Hin, <- app_assoc.
  - eapply Forall_impl; [exact Hf|]. intros [m|]; cbn [fits]; lia.
  - exists rest. cbn [advance input]. rewrite Hin, Nat2N.id, <- app_assoc.
    now rewrite drop_app_length.
  - cbn [advance frames]. apply Forall_map.
    eapply Forall_impl; [exact Hf|]. intros [m|]; cbn [fits reduce]; lia.
Qed.

Lemma holds_cons b bs s :
  holds (b :: bs) s -> holds bs (advance 1 s).
Proof. intros H. now apply (holds_app [b] bs s) in H as [_ H]. Qed.

Lemma holds_nil s : holds [] s.
Proof.
  split; [now exists (input s)|].
  apply Forall_forall. intros [m|] _; cbn; [lia|easy].
Qed.

Lemma input_advance n s :
  length (input (advance n s)) = (length (input s) - N.to_nat n)%nat.
Proof. cbn. apply length_drop. Qed.

(** *** Lengths *)

Lemma BytePrecision_covers n : n < 2 ^ (8 * BytePrecision n).
Proof.
  unfold BytePrecision. eapply N.lt_le_trans; [apply N.size_gt|].
  apply N.pow_le_mono_r; [lia|].
  pose proof (N.Div0.mul_div_le (N.size n + 7) 8).
  pose proof (N.mod_upper_bound (N.size n + 7) 8).
  pose proof (N.div_mod (N.size n + 7) 8). lia.
Qed.

Lemma BytePrecision_bound n : n < 2 ^ 64 -> BytePrecision n <= 8.
Proof.
  intros Hn. unfold BytePrecision.
  assert (N.size n <= 64).
  { destruct (N.eq_dec n 0) as [->|Hne]; [cbn; lia|].
    rewrite N.size_log2 by assumption.
    apply N.log2_lt_pow2 in Hn; [lia|lia]. }
  change 8 with (71 / 8) at 2. apply N.Div0.div_le_mono. lia.
Qed.

Lemma BytePrecision_pos n : 0 < n -> 1 <= BytePrecision n.
Proof.
  intros Hn. unfold BytePrecision.
  rewrite N.size_log2 by lia.
  apply N.div_le_lower_bound; lia.
Qed.

Lemma shift_in_byte n k :
  N.lor (N.shiftl (N.shiftr n (k + 8)) 8) (N.shiftr n k mod 256)
  = N.shiftr n k.
Proof.
  apply N.bits_inj. intros i. rewrite N.lor_spec.
  change 256 with (2 ^ 8).
  destruct (N.lt_ge_cases i 8) as [Hi|Hi].
  - rewrite N.shiftl_spec_low by assumption.
    now rewrite N.mod_pow2_bits_low by assumption.
  - rewrite N.shiftl_spec_high' by assumption.
    rewrite N.mod_pow2_bits_high by assumption.
    rewrite !N.shiftr_spec', orb_false_r. f_equal. lia.
Qed.

Lemma length_put_big_endian j n : length (put_big_endian j n) = j.
Proof. induction j; cbn; congruence. Qed.

Lemma get_length_bytes_big_endian n : forall j s,
  n < 2 ^ 64 ->
  holds (put_big_endian j n) s ->
  (j <> 0%nat -> N.shiftr n (8 * N.of_nat j) < 2 ^ 56) ->
  get_length_bytes j (N.shiftr n (8 * N.of_nat j)) s
  = inr (n, advance (N.of_nat j) s).
Proof.
  induction j as [|j IH]; intros s Hn Hs Hacc.
  - cbn. now rewrite advance_0.
  - cbn [get_length_bytes put_big_endian] in *.
    set (acc := N.shiftr n (8 * N.of_nat (S j))) in *.
    assert (Hz : N.shiftr acc 56 = 0).
    { apply N.shiftr_eq_0_iff. specialize (Hacc ltac:(lia)).
      destruct (N.eq_dec acc 0) as [E0|E0]; [now left|right].
      split; [lia|]. apply N.log2_lt_pow2; lia. }
    rewrite Hz. cbn [N.eqb negb].
    erewrite dec_bind_run by (eapply GetByte_holds; exact Hs).
    rewrite to_N_byte_of_N.
    assert (E : N.lor (N.shiftl acc 8) (N.shiftr n (8 * N.of_nat j) mod 256)
                = N.shiftr n (8 * N.of_nat j)).
    { subst acc. replace (8 * N.of_nat (S j)) with (8 * N.of_nat j + 8)
        by lia. apply shift_in_byte. }
    rewrite E, IH; [rewrite advance_advance; repeat f_equal; lia|assumption| |].
    + now apply holds_cons in Hs.
    + intros Hj. rewrite N.shiftr_div_pow2.
      apply N.Div0.div_lt_upper_bound.
      eapply N.lt_le_trans; [exact Hn|].
      rewrite <- N.pow_add_r. apply N.pow_le_mono_r; lia.
Qed.

Lemma BERLengthDecode_DER n s :
  n < 2 ^ 64 ->
  holds (DERLengthEncode n) s ->
  BERLengthDecode s
  = inr (Definite n, advance (N.of_nat (length (DERLengthEncode n))) s).
Proof.
  intros Hn Hs. unfold BERLengthDecode, DERLengthEncode in *.
  destruct (N.leb_spec n 127) as [Hsmall|Hbig].
  - erewrite dec_bind_run by (eapply GetByte_holds; exact Hs).
    rewrite to_N_byte_of_N, N.mod_small by lia.
    rewrite N.bits_above_log2; [reflexivity|].
    destruct (N.eq_dec n 0) as [->|Hne]; [cbn; lia|].
    apply N.log2_lt_pow2; [lia|]. change (2 ^ 7) with 128. lia.
  - erewrite dec_bind_run by (eapply GetByte_holds; exact Hs).
    rewrite to_N_byte_of_N.
    pose proof (BytePrecision_bound n Hn) as Hle.
    pose proof (BytePrecision_pos n ltac:(lia)) as Hge.
    pose proof (BytePrecision_covers n) as Hcov.
    set (bp := BytePrecision n) in *.
    fold bp in Hs.
    assert (E : N.lor bp 128 mod 256 = 128 + bp
                /\ N.testbit (128 + bp) 7 = true
                /\ N.land (128 + bp) 127 = bp).
    { assert (Hbp : bp = 1 \/ bp = 2 \/ bp = 3 \/ bp = 4 \/ bp = 5
                    \/ bp = 6 \/ bp = 7 \/ bp = 8) by lia.
      clearbody bp. clear -Hbp.
      destruct Hbp as [->|[->|[->|[->|[->|[->|[->| ->]]]]]]];
        repeat split. }
    destruct E as (-> & -> & ->). cbn [negb].
    destruct (N.eqb_spec bp 0) as [|_]; [lia|].
    apply holds_cons in Hs.
    pose proof (get_length_bytes_big_endian n (N.to_nat bp) _ Hn Hs) as HL.
    rewrite N2Nat.id in HL.
    rewrite (N.shiftr_eq_0 n (8 * bp)) in HL.
    + erewrite dec_bind_run by (apply HL; lia).
      unfold dec_ret. rewrite advance_advance. repeat f_equal.
      cbn [length]. rewrite length_put_big_endian. lia.
    + destruct (N.eq_dec n 0) as [->|Hne]; [cbn; lia|].
      apply N.log2_lt_pow2; lia.
Qed.

(** *** Sequences *)

(** The length of tag and length bytes of a sequence. *)
Definition header (body : list byte) : N :=
  N.of_nat (length (DERSequenceEncoder body) - length body).

(** The state in which the decoder of a sequence starts on its body. *)
Definition enter (body : list byte) (s : BER) : BER :=
  mkBER (input (advance (header body) s))
        (Definite (N.of_nat (length body))
           :: frames (advance (header body) s)).

Lemma length_DERSequenceEncoder body :
  N.of_nat (length (DERSequenceEncoder body))
  = header body + N.of_nat (length body).
Proof.
  unfold header, DERSequenceEncoder. cbn [length].
  rewrite length_app. lia.
Qed.

Lemma BERSequenceDecoder_DER body s :
  N.of_nat (length body) < 2 ^ 64 ->
  holds (DERSequenceEncoder body) s ->
  BERSequenceDecoder s = inr (tt, enter body s)
  /\ holds body (enter body s).
Proof.
  intros Hlen Hs. unfold BERSequenceDecoder, DERSequenceEncoder in *.
  erewrite dec_bind_run by (eapply GetByte_holds; exact Hs).
  rewrite byte_eqb_refl.
  apply holds_cons, holds_app in Hs as [Hl Hb].
  unfold lword in *. rewrite N.mod_small in * by assumption.
  erewrite dec_bind_run by (apply BERLengthDecode_DER; eassumption).
  rewrite !advance_advance in *.
  assert (Hh : header body
               = 1 + N.of_nat (length (DERLengthEncode
                                         (N.of_nat (length body))))).
  { unfold header, DERSequenceEncoder, lword.
    rewrite N.mod_small by assumption. cbn [length].
    rewrite length_app. lia. }
  unfold enter, push. rewrite Hh. split; [reflexivity|].
  destruct Hb as [Hin Hf]. split; [exact Hin|].
  constructor; [cbn; lia|exact Hf].
Qed.

Lemma EndReached_in_sequence body k s :
  EndReached (advance k (enter body s))
  = (N.of_nat (length body) - k =? 0).
Proof. reflexivity. Qed.

Lemma MessageEnd_sequence body s :
  MessageEnd (advance (N.of_nat (length body)) (enter body s))
  = inr (tt, advance (N.of_nat (length (DERSequenceEncoder body))) s).
Proof.
  unfold MessageEnd. cbn [frames advance enter map reduce input].
  rewrite N.sub_diag. cbn [N.eqb].
  rewrite length_DERSequenceEncoder, <- advance_advance. reflexivity.
Qed.

Lemma BERDecodeString_DER asnTag str s :
  N.of_nat (length str) < 2 ^ 64 ->
  holds (DEREncodeString asnTag str) s ->
  BERDecodeString asnTag s
  = inr (str, advance (N.of_nat (length (DEREncodeString asnTag str))) s).
Proof.
  intros Hlen Hs. unfold BERDecodeString, DEREncodeString in *.
  erewrite dec_bind_run by (eapply GetByte_holds; exact Hs).
  rewrite byte_eqb_refl.
  apply holds_cons, holds_app in Hs as [Hl Hb].
  unfold lword in *. rewrite N.mod_small in * by assumption.
  unfold BERLengthDecode_definite.
  erewrite dec_bind_run.
  2:{ erewrite dec_bind_run by (apply BERLengthDecode_DER; eassumption).
      reflexivity. }
  erewrite dec_bind_run by (apply Get_holds; exact Hb).
  rewrite N.eqb_refl. unfold dec_ret. rewrite !advance_advance.
  repeat f_equal. cbn [length]. rewrite length_app. lia.
Qed.

(** *** Reading takes input away *)

(** A decoder that, when it succeeds, has taken at least one byte, and one
    that has not added any. *)
Definition shortens {A} (d : Dec A) : Prop :=
  forall s x s', d s = inr (x, s') ->
                 (length (input s') < length (input s))%nat.
Definition keeps {A} (d : Dec A) : Prop :=
  forall s x s', d s = inr (x, s') ->
                 (length (input s') <= length (input s))%nat.

Lemma shortens_keeps {A} (d : Dec A) : shortens d -> keeps d.
Proof. intros H s x s' E. specialize (H s x s' E). lia. Qed.

Lemma keeps_bind {A B} (m : Dec A) (f : A -> Dec B) :
  keeps m -> (forall x, keeps (f x)) -> keeps (dec_bind m f).
Proof.
  intros Hm Hf s y s'. unfold dec_bind.
  destruct (m s) as [e|[x s1]] eqn:E; [discriminate|]. intros E'.
  specialize (Hm s x s1 E). specialize (Hf x s1 y s' E'). lia.
Qed.

Lemma shortens_bind {A B} (m : Dec A) (f : A -> Dec B) :
  shortens m -> (forall x, keeps (f x)) -> shortens (dec_bind m f).
Proof.
  intros Hm Hf s y s'. unfold dec_bind.
  destruct (m s) as [e|[x s1]] eqn:E; [discriminate|]. intros E'.
  specialize (Hm s x s1 E). specialize (Hf x s1 y s' E'). lia.
Qed.

Lemma keeps_ret {A} (x : A) : keeps (dec_ret x).
Proof. intros s y s' [= _ <-]. lia. Qed.

Lemma keeps_error {A} : keeps (@BERDecodeError A).
Proof. intros s y s' [=]. Qed.

Lemma keeps_Get k : keeps (Get k).
Proof.
  intros s y s' [= _ <-]. rewrite input_advance. lia.
Qed.

Lemma shortens_GetByte : shortens GetByte.
Proof.
  intros s b s'. unfold GetByte, dec_bind, Get.
  destruct (take _ (input s)) as [|b1 [|b2 l]] eqn:E; try discriminate.
  intros [= _ <-]. rewrite input_advance.
  assert (Hl : length (take (N.to_nat (retrievable 1 s)) (input s)) = 1%nat)
    by now rewrite E.
  rewrite length_take in Hl. lia.
Qed.

Lemma keeps_get_length_bytes j : forall acc, keeps (get_length_bytes j acc).
Proof.
  induction j as [|j IH]; intros acc; cbn [get_length_bytes].
  - apply keeps_ret.
  - destruct (negb _); [apply keeps_error|].
    apply keeps_bind; [apply shortens_keeps, shortens_GetByte|].
    intros b. apply IH.
Qed.

Lemma keeps_BERLengthDecode : keeps BERLengthDecode.
Proof.
  apply keeps_bind; [apply shortens_keeps, shortens_GetByte|]. intros b.
  destruct (negb _); [apply keeps_ret|]. cbv zeta.
  destruct (N.eqb _ _); [apply keeps_ret|].
  apply keeps_bind; [apply keeps_get_length_bytes|].
  intros n. apply keeps_ret.
Qed.

Lemma keeps_BERLengthDecode_definite : keeps BERLengthDecode_definite.
Proof.
  apply keeps_bind; [apply keeps_BERLengthDecode|].
  intros [n|]; [apply keeps_ret|apply keeps_error].
Qed.

Lemma shortens_BERSequenceDecoder : shortens BERSequenceDecoder.
Proof.
  apply shortens_bind; [apply shortens_GetByte|]. intros b.
  destruct (Byte.eqb _ _); [|apply keeps_error].
  apply keeps_bind; [apply keeps_BERLengthDecode|].
  intros f s x s' [= _ <-]. reflexivity.
Qed.

Lemma shortens_BERDecodeString asnTag : shortens (BERDecodeString asnTag).
Proof.
  apply shortens_bind; [apply shortens_GetByte|]. intros b.
  destruct (Byte.eqb _ _); [|apply keeps_error].
  apply keeps_bind; [apply keeps_BERLengthDecode_definite|]. intros bc.
  apply keeps_bind; [apply keeps_Get|]. intros temp.
  destruct (N.eqb _ _); [apply keeps_ret|apply keeps_error].
Qed.

Lemma keeps_MessageEnd : keeps MessageEnd.
Proof.
  intros s x s'. unfold MessageEnd.
  destruct (frames s) as [|[m|] outer]; [discriminate| |].
  - destruct (m =? 0); [|discriminate]. intros [= _ <-]. reflexivity.
  - destruct (Get 2 _) as [e|[[|b1 [|b2 [|b3 l]]] s1]] eqn:E;
      try discriminate.
    destruct (_ && _); [|discriminate]. intros [= _ <-].
    apply keeps_Get in E. exact E.
Qed.

End Asn1Facts.

(** ** Time points and their text form *)
Module TimeFacts.
Import Asn1 Asn1Facts Time.
Local Open Scope Z_scope.

(** *** The calendar *)

(** What is to hold of a day of the era: its date is a date, within the
    400 years of the era, and it is the day of that date. *)
Definition era_day_ok (doe : Z) : bool :=
  let '(yoe, m, d) := date_of_era_day doe in
  let y := if m <=? 2 then yoe + 1 else yoe in
  (0 <=? yoe) && (yoe <? 400)
  && (1 <=? m) && (m <=? 12) && (1 <=? d) && (d <=? days_in_month y m)
  && (day_of_era yoe m d =? doe)
  && (Bool.eqb (y <=? 399) (doe <=? 146036)).

(** [f] holds of the [count] numbers from [start] on. *)
Fixpoint all_from (f : Z -> bool) (start : Z) (count : positive) : bool :=
  match count with
  | xH => f start
  | xO half =>
      all_from f start half && all_from f (start + Z.pos half) half
  | xI half =>
      f start && all_from f (start + 1) half
      && all_from f (start + 1 + Z.pos half) half
  end.

Lemma all_from_spec f count : forall start,
  all_from f start count = true ->
  forall z, start <= z < start + Z.pos count -> f z = true.
Proof.
  induction count as [half IH|half IH|]; intros start H z Hz;
    cbn [all_from] in H.
  - apply andb_true_iff in H as [H H2]. apply andb_true_iff in H as [H0 H1].
    destruct (Z.eq_dec z start) as [->|Hne]; [exact H0|].
    destruct (Z_lt_le_dec z (start + 1 + Z.pos half)).
    + apply (IH _ H1). lia.
    + apply (IH _ H2). lia.
  - apply andb_true_iff in H as [H1 H2].
    destruct (Z_lt_le_dec z (start + Z.pos half)).
    + apply (IH _ H1). lia.
    + apply (IH _ H2). lia.
  - assert (z = start) as -> by lia. exact H.
Qed.

(** The year of the era and the day of that year. *)
Lemma year_of_era_spec doe :
  0 <= doe < 146097 ->
  let yoe := (doe - doe / 1460 + doe / 36524 - doe / 146096) / 365 in
  let doy := doe - (365 * yoe + yoe / 4 - yoe / 100) in
  0 <= yoe < 400 /\ 0 <= doy <= 365
  /\ (doy = 365 ->
      (yoe + 1) mod 4 = 0
      /\ ((yoe + 1) mod 100 <> 0 \/ (yoe + 1) mod 400 = 0))
  /\ (doe <= 146036 <-> yoe + (if 306 <=? doy then 1 else 0) <= 399).
Proof.
  intros H yoe doy. subst yoe doy.
  match goal with
  | |- context [306 <=? ?x] => destruct (Z.leb_spec 306 x)
  end; Z.div_mod_to_equations; lia.
Qed.

(** Month and day of a day of the year that starts in March. *)
Definition month_day_ok (doy : Z) : bool :=
  let mp := (5 * doy + 2) / 153 in
  let d := doy - (153 * mp + 2) / 5 + 1 in
  let m := if mp <? 10 then mp + 3 else mp - 9 in
  (1 <=? m) && (m <=? 12) && (1 <=? d)
  && (d <=? (if m =? 2 then (if doy =? 365 then 29 else 28)
             else days_in_month 1 m))
  && ((153 * (if 2 <? m then m - 3 else m + 9) + 2) / 5 + d - 1 =? doy)
  && Bool.eqb (m <=? 2) (306 <=? doy).

Lemma all_month_days_ok : all_from month_day_ok 0 366 = true.
Proof. vm_compute. reflexivity. Qed.

Lemma days_in_month_not_february y m :
  m <> 2 -> days_in_month y m = days_in_month 1 m.
Proof.
  intros Hm. unfold days_in_month.
  destruct (Z.eqb_spec m 2); [contradiction|reflexivity].
Qed.

Lemma era_day_ok_all doe : 0 <= doe < 146097 -> era_day_ok doe = true.
Proof.
  intros Hdoe. unfold era_day_ok, date_of_era_day.
  pose proof (year_of_era_spec doe Hdoe) as Hy. cbv zeta in Hy.
  set (yoe := (doe - doe / 1460 + doe / 36524 - doe / 146096) / 365) in *.
  set (doy := doe - (365 * yoe + yoe / 4 - yoe / 100)) in *.
  destruct Hy as (Hyoe & Hdoy & Hleap & Hrange).
  pose proof (all_from_spec _ _ _ all_month_days_ok doy ltac:(lia)) as Hmd.
  unfold month_day_ok in Hmd. cbv zeta in Hmd.
  set (mp := (5 * doy + 2) / 153) in *.
  set (d := doy - (153 * mp + 2) / 5 + 1) in *.
  set (m := if mp <? 10 then mp + 3 else mp - 9) in *.
  clearbody m d mp. unfold day_of_era.
  rewrite !andb_true_iff in Hmd.
  destruct Hmd as (((((Hm1 & Hm12) & Hd1) & Hdm) & Hback) & Hjan).
  apply eqb_prop in Hjan. apply Z.leb_le in Hdm.
  assert (Hd : d <= days_in_month (if m <=? 2 then yoe + 1 else yoe) m).
  { destruct (Z.eqb_spec m 2) as [Hm|Hm].
    - rewrite Hm. change (2 <=? 2) with true. cbv iota.
      unfold days_in_month. change (2 =? 2) with true. cbv iota.
      destruct (Z.eqb_spec doy 365) as [E|E];
        [|destruct (is_leap (yoe + 1)); lia].
      destruct (Hleap E) as [H4 H100]. unfold is_leap. rewrite H4.
      change (0 =? 0) with true. cbn [andb].
      destruct (Z.eqb_spec ((yoe + 1) mod 100) 0);
        destruct (Z.eqb_spec ((yoe + 1) mod 400) 0); cbn [negb orb]; lia.
    - rewrite days_in_month_not_february by assumption. lia. }
  assert (Hadj : (if m <=? 2 then yoe + 1 else yoe)
                 = yoe + (if 306 <=? doy then 1 else 0)).
  { rewrite <- Hjan. destruct (m <=? 2); lia. }
  repeat (apply andb_true_iff; split); lia.
Qed.

Lemma is_leap_period y e : is_leap (y + e * 400) = is_leap y.
Proof.
  unfold is_leap.
  replace ((y + e * 400) mod 4) with (y mod 4)
    by (replace (e * 400) with (e * 100 * 4) by lia;
        now rewrite Z_mod_plus_full).
  replace ((y + e * 400) mod 100) with (y mod 100)
    by (replace (e * 400) with (e * 4 * 100) by lia;
        now rewrite Z_mod_plus_full).
  now rewrite Z_mod_plus_full.
Qed.

Lemma days_in_month_period y e m :
  days_in_month (y + e * 400) m = days_in_month y m.
Proof. unfold days_in_month. now rewrite is_leap_period. Qed.

(** The date of a day is a date, and the day is the day of its date. *)
Lemma civil_from_days_spec z :
  let '(y, m, d) := civil_from_days z in
  days_from_civil y m d = z
  /\ 1 <= m <= 12 /\ 1 <= d <= days_in_month y m
  /\ (-719528 <= z <= 2932896 -> 0 <= y <= 9999).
Proof.
  unfold civil_from_days.
  pose proof (Z.mod_pos_bound (z + 719468) 146097 ltac:(lia)) as Hdoe.
  pose proof (Z.div_mod (z + 719468) 146097 ltac:(lia)) as Hz.
  set (era := (z + 719468) / 146097) in *.
  set (doe := (z + 719468) mod 146097) in *.
  pose proof (era_day_ok_all doe Hdoe) as Hok. unfold era_day_ok in Hok.
  destruct (date_of_era_day doe) as [[yoe m] d].
  repeat (apply andb_true_iff in Hok as [Hok ?]).
  apply eqb_prop in H.
  assert (Hy : (if m <=? 2 then yoe + era * 400 + 1 else yoe + era * 400)
               = (if m <=? 2 then yoe + 1 else yoe) + era * 400)
    by (destruct (m <=? 2); lia).
  rewrite Hy, days_in_month_period. clearbody era doe.
  split; [|split; [lia|split; [lia|]]].
  - unfold days_from_civil.
    replace (if m <=? 2
             then (if m <=? 2 then yoe + 1 else yoe) + era * 400 - 1
             else (if m <=? 2 then yoe + 1 else yoe) + era * 400)
      with (yoe + era * 400) by (destruct (m <=? 2); lia).
    rewrite Z_div_plus_full, Z_mod_plus_full by lia.
    rewrite Z.div_small, Z.mod_small by lia. lia.
  - intros Hr.
    destruct (Z.leb_spec (if m <=? 2 then yoe + 1 else yoe) 399);
      destruct (Z.leb_spec doe 146036); try discriminate;
      destruct (m <=? 2); lia.
Qed.

(** *** Digits *)

Lemma digit_value_digit d : digit_value (digit d) = Some (d mod 10).
Proof.
  unfold digit_value, digit. rewrite to_N_byte_of_N.
  pose proof (Z.mod_pos_bound d 10 ltac:(lia)) as Hd.
  rewrite N.mod_small by lia.
  rewrite N2Z.inj_add, Z2N.id by lia. change (Z.of_N 48) with 48.
  destruct (Z.leb_spec 48 (48 + d mod 10)); [|lia].
  destruct (Z.leb_spec (48 + d mod 10) 57); [|lia].
  cbn [andb]. f_equal. lia.
Qed.

Lemma number_two_digits n : 0 <= n < 100 -> number (two_digits n) = Some n.
Proof.
  intros Hn. unfold number, two_digits. cbn [number_from].
  rewrite !digit_value_digit. cbn. f_equal.
  pose proof (Z.div_mod n 10 ltac:(lia)).
  pose proof (Z.mod_pos_bound n 10 ltac:(lia)).
  rewrite (Z.mod_small (n / 10)); [lia|].
  split; [apply Z.div_pos; lia|apply Z.div_lt_upper_bound; lia].
Qed.

Lemma number_four_digits n :
  0 <= n < 10000 -> number (four_digits n) = Some n.
Proof.
  intros Hn. unfold number, four_digits. cbn [number_from].
  rewrite !digit_value_digit. cbn. f_equal.
  pose proof (Z.div_mod n 10 ltac:(lia)).
  pose proof (Z.div_mod (n / 10) 10 ltac:(lia)).
  pose proof (Z.div_mod (n / 100) 10 ltac:(lia)).
  pose proof (Z.mod_pos_bound n 10 ltac:(lia)).
  replace (n / 100) with (n / 10 / 10) in *
    by (rewrite Z.div_div by lia; reflexivity).
  replace (n / 1000) with (n / 10 / 10 / 10) in *
    by (rewrite !Z.div_div by lia; reflexivity).
  rewrite (Z.mod_small (n / 10 / 10 / 10)); [lia|].
  split; [repeat apply Z.div_pos; lia|].
  repeat (apply Z.div_lt_upper_bound; [lia|]). lia.
Qed.

(** *** The text form of a time point *)

Lemma fromIsoString_toIsoString t :
  representable t -> fromIsoString (toIsoString t) = Some t.
Proof.
  intros [Hwhole Hrange]. unfold toIsoString.
  pose proof (Z.div_mod t ticks_per_second ltac:(discriminate)) as Ht.
  rewrite Hwhole in Ht.
  set (secs := t / ticks_per_second) in *.
  pose proof (Z.div_mod secs 86400 ltac:(lia)) as Hsecs.
  pose proof (Z.mod_pos_bound secs 86400 ltac:(lia)) as Hsod.
  set (days := secs / 86400) in *. set (sod := secs mod 86400) in *.
  pose proof (civil_from_days_spec days) as Hciv.
  destruct (civil_from_days days) as [[y m] d].
  destruct Hciv as (Hdays & Hm & Hd & Hy). specialize (Hy ltac:(lia)).
  pose proof (Z.div_mod sod 3600 ltac:(lia)) as Hh.
  pose proof (Z.mod_pos_bound sod 3600 ltac:(lia)) as Hh'.
  pose proof (Z.div_mod (sod mod 3600) 60 ltac:(lia)) as Hmi.
  pose proof (Z.mod_pos_bound (sod mod 3600) 60 ltac:(lia)) as Hmi'.
  assert (Hs : sod mod 60 = sod mod 3600 mod 60).
  { clear. Z.div_mod_to_equations. lia. }
  set (hh := sod / 3600) in *. set (mi := sod mod 3600 / 60) in *.
  set (ss := sod mod 60) in *.
  assert (Hhh : 0 <= hh < 24)
    by (subst hh; split; [apply Z.div_pos; lia
                         |apply Z.div_lt_upper_bound; lia]).
  assert (Hmm : 0 <= mi < 60)
    by (subst mi; split; [apply Z.div_pos; lia
                         |apply Z.div_lt_upper_bound; lia]).
  assert (Hdm : days_in_month y m <= 31)
    by (unfold days_in_month; repeat destruct (_ =? _);
        try destruct (is_leap y); cbn; lia).
  unfold four_digits, two_digits. cbn [app fromIsoString].
  change (Byte.eqb letter_T letter_T) with true. cbn match.
  change [digit (y / 1000); digit (y / 100); digit (y / 10); digit y]
    with (four_digits y).
  repeat match goal with
         | |- context [ [digit (?n / 10); digit ?n] ] =>
             change [digit (n / 10); digit n] with (two_digits n)
         end.
  rewrite number_four_digits by lia.
  rewrite !number_two_digits by lia. cbn [mbind option_bind].
  unfold valid_date_time.
  repeat match goal with
         | |- context [ ?a <=? ?b ] =>
             destruct (Z.leb_spec a b); [|lia]
         | |- context [ ?a <? ?b ] =>
             destruct (Z.ltb_spec a b); [|lia]
         end.
  cbn [andb]. f_equal. rewrite Hdays. lia.
Qed.

Lemma toIsoString_general_time t :
  substr 0 8 (substr 0 8 (toIsoString t) ++ substr 9 6 (toIsoString t)
              ++ [letter_Z])
  ++ [letter_T]
  ++ substr 8 6 (substr 0 8 (toIsoString t) ++ substr 9 6 (toIsoString t)
                 ++ [letter_Z])
  = toIsoString t
  /\ length (substr 0 8 (toIsoString t) ++ substr 9 6 (toIsoString t)
             ++ [letter_Z]) = 15%nat.
Proof.
  unfold toIsoString. destruct (civil_from_days _) as [[y m] d].
  split; reflexivity.
Qed.

(** [BERDecodeTime] is [BERDecodeString] followed by the reading of the
    text. *)
Lemma BERDecodeTime_alt s :
  BERDecodeTime s
  = match BERDecodeString GENERALIZED_TIME s with
    | inl e => inl e
    | inr (time_str, s') =>
        match fromIsoString (substr 0 8 time_str ++ [letter_T]
                             ++ substr 8 6 time_str) with
        | Some time => inr (time, s')
        | None => inl TimeFormatErr
        end
    end.
Proof.
  unfold BERDecodeTime, BERDecodeString, dec_bind.
  destruct (GetByte s) as [e|[b s1]]; [reflexivity|].
  destruct (Byte.eqb b GENERALIZED_TIME); [|reflexivity].
  destruct (BERLengthDecode_definite s1) as [e|[bc s2]]; [reflexivity|].
  destruct (Get bc s2) as [e|[time_str s3]]; [reflexivity|].
  destruct (N.eqb _ _); [|reflexivity].
  unfold dec_ret. now destruct (fromIsoString _).
Qed.

(** A representable time point is read back from its encoding. *)
Lemma BERDecodeTime_DER t s :
  representable t ->
  holds (DEREncodeGeneralTime t) s ->
  BERDecodeTime s
  = inr (t, advance (N.of_nat (length (DEREncodeGeneralTime t))) s).
Proof.
  intros Ht Hs. rewrite BERDecodeTime_alt.
  destruct (toIsoString_general_time t) as [Htext Hlen].
  change (DEREncodeGeneralTime t)
    with (DEREncodeString GENERALIZED_TIME
            (substr 0 8 (toIsoString t) ++ substr 9 6 (toIsoString t)
             ++ [letter_Z])) in *.
  rewrite (BERDecodeString_DER _ _ _ ltac:(rewrite Hlen; cbn; lia) Hs).
  now rewrite Htext, fromIsoString_toIsoString.
Qed.

End TimeFacts.

(** ** The members of a certificate *)
Module MemberFacts.
Import Asn1 Asn1Facts Members.
Local Open Scope N_scope.
Local Open Scope dec_scope.

Lemma shortens_SubjectDescription_decode : shortens SubjectDescription_decode.
Proof.
  apply shortens_bind; [apply shortens_BERSequenceDecoder|]. intros _.
  apply keeps_bind; [apply shortens_keeps, shortens_BERDecodeString|].
  intros oid.
  apply keeps_bind; [apply shortens_keeps, shortens_BERDecodeString|].
  intros value.
  apply keeps_bind; [apply keeps_MessageEnd|]. intros _. apply keeps_ret.
Qed.

Lemma shortens_Extension_decode : shortens Extension_decode.
Proof.
  apply shortens_bind; [apply shortens_BERSequenceDecoder|]. intros _.
  do 3 (apply keeps_bind;
        [apply shortens_keeps, shortens_BERDecodeString|]; intros ?).
  apply keeps_bind; [apply keeps_MessageEnd|]. intros _. apply keeps_ret.
Qed.

Lemma shortens_PublicKey_decode : shortens PublicKey_decode.
Proof.
  apply shortens_bind; [apply shortens_BERSequenceDecoder|]. intros _.
  apply keeps_bind.
  - intros s x s'. destruct (frames s) as [|[m|] ?]; try discriminate.
    apply keeps_Get.
  - intros body. apply keeps_bind; [apply keeps_MessageEnd|].
    intros _. apply keeps_ret.
Qed.

#[global] Instance SubjectDescription_Asn1 : Asn1 CertificateSubjectDescription :=
  {| encodeTo := SubjectDescription_encode;
     decodeFrom := SubjectDescription_decode;
     decodeFrom_consumes := shortens_SubjectDescription_decode |}.

#[global] Instance Extension_Asn1 : Asn1 CertificateExtension :=
  {| encodeTo := Extension_encode;
     decodeFrom := Extension_decode;
     decodeFrom_consumes := shortens_Extension_decode |}.

#[global] Instance PublicKey_Asn1 : Asn1 PublicKey :=
  {| encodeTo := PublicKey_encode;
     decodeFrom := PublicKey_decode;
     decodeFrom_consumes := shortens_PublicKey_decode |}.

Lemma small_body body : small (DERSequenceEncoder body) -> small body.
Proof.
  unfold small. rewrite length_DERSequenceEncoder. lia.
Qed.

Lemma SubjectDescription_decode_encode d s :
  wf_SubjectDescription d ->
  holds (SubjectDescription_encode d) s ->
  SubjectDescription_decode s
  = inr (d, advance (N.of_nat (length (SubjectDescription_encode d))) s).
Proof.
  intros (Ho & Hv & Hb) Hs. apply small_body in Hb. unfold small in *.
  unfold SubjectDescription_decode, SubjectDescription_encode in *.
  destruct (BERSequenceDecoder_DER _ _ Hb Hs) as [E1 Hin].
  erewrite dec_bind_run by exact E1.
  apply holds_app in Hin as [H1 H2].
  erewrite dec_bind_run
    by (apply BERDecodeString_DER; cycle 1; [eassumption|assumption]).
  erewrite dec_bind_run
    by (apply BERDecodeString_DER; cycle 1; [eassumption|assumption]).
  rewrite advance_advance, <- Nat2N.inj_add, <- length_app.
  erewrite dec_bind_run by apply MessageEnd_sequence.
  now destruct d.
Qed.

Lemma flag_of_flag_bytes b : flag_of_bytes (flag_bytes b) = b.
Proof. now destruct b. Qed.

Lemma Extension_decode_encode e s :
  wf_Extension e ->
  holds (Extension_encode e) s ->
  Extension_decode s
  = inr (e, advance (N.of_nat (length (Extension_encode e))) s).
Proof.
  intros (Ho & Hv & Hb) Hs. apply small_body in Hb. unfold small in *.
  unfold Extension_decode, Extension_encode in *.
  destruct (BERSequenceDecoder_DER _ _ Hb Hs) as [E1 Hin].
  erewrite dec_bind_run by exact E1.
  apply holds_app in Hin as [H1 H2]. apply holds_app in H2 as [H2 H3].
  erewrite dec_bind_run
    by (apply BERDecodeString_DER; cycle 1; [eassumption|assumption]).
  erewrite dec_bind_run
    by (apply BERDecodeString_DER; cycle 1;
        [eassumption|destruct (m_isCritical e); cbn; lia]).
  erewrite dec_bind_run
    by (apply BERDecodeString_DER; cycle 1; [eassumption|assumption]).
  rewrite !advance_advance, <- !Nat2N.inj_add, <- !length_app.
  erewrite dec_bind_run by apply MessageEnd_sequence.
  rewrite flag_of_flag_bytes. now destruct e.
Qed.

Lemma PublicKey_decode_encode k s :
  wf_PublicKey k ->
  holds (PublicKey_encode k) s ->
  PublicKey_decode s
  = inr (k, advance (N.of_nat (length (PublicKey_encode k))) s).
Proof.
  intros (body & Hb & Hk) Hs. destruct k as [bytes]. cbn in Hk. subst bytes.
  unfold small in *.
  unfold PublicKey_decode, PublicKey_encode in *. cbn [key_bytes] in *.
  destruct (BERSequenceDecoder_DER _ _ Hb Hs) as [E1 Hin].
  erewrite dec_bind_run by exact E1.
  erewrite dec_bind_run by (cbn [frames enter]; apply Get_holds; exact Hin).
  erewrite dec_bind_run by apply MessageEnd_sequence.
  reflexivity.
Qed.

#[global] Instance SubjectDescription_SelfDelimiting :
  SelfDelimiting CertificateSubjectDescription wf_SubjectDescription :=
  SubjectDescription_decode_encode.

#[global] Instance Extension_SelfDelimiting :
  SelfDelimiting CertificateExtension wf_Extension :=
  Extension_decode_encode.

#[global] Instance PublicKey_SelfDelimiting :
  SelfDelimiting PublicKey wf_PublicKey :=
  PublicKey_decode_encode.

End MemberFacts.

(** ** Certificates *)
Module CertFacts.
Import Asn1 Asn1Facts Time TimeFacts Cert NdnName.
Local Open Scope N_scope.

Section Certificate.
Context {SubjectDescription Extension PublicKey : Type}.
Context `{!Asn1 SubjectDescription, !Asn1 Extension, !Asn1 PublicKey}.

Abbreviation Certificate := (Certificate SubjectDescription Extension PublicKey).

(** *** Steps of [decode] *)

Lemma lift_run {A B} (d : Dec A) (f : A -> M B) (c : Certificate) s x s' :
  d s = inr (x, s') -> m_bind (lift d) f c s = f x c s'.
Proof. unfold m_bind, lift. now intros ->. Qed.

Lemma lift_run_last {A} (d : Dec A) (c : Certificate) s r :
  d s = r -> lift d c s = (c, r).
Proof. unfold lift. now intros ->. Qed.

Lemma m_bind_cond {A B} (cond : BER -> bool) (m1 m2 : M A) (f : A -> M B)
    (c : Certificate) s :
  m_bind (fun c idCert => if cond idCert then m1 c idCert else m2 c idCert)
         f c s
  = if cond s then m_bind m1 f c s else m_bind m2 f c s.
Proof. unfold m_bind. now destruct (cond s). Qed.

Lemma assign_run {B} g (f : unit -> M B) (c : Certificate) s :
  m_bind (assign g) f c s = f tt (g c) s.
Proof. reflexivity. Qed.

Lemma m_bind_run {A B} (m : M A) (f : A -> M B) (c c' : Certificate) s x s' :
  m c s = (c', inr (x, s')) -> m_bind m f c s = f x c' s'.
Proof. unfold m_bind. now intros ->. Qed.

(** The body of the two loops: read an entry, append it. *)
Definition read_entry {A} `{!Asn1 A} (push_back : A -> Certificate -> Certificate)
    : M unit :=
  m_bind (lift decodeFrom) (fun x => assign (push_back x)).

Definition push_all {A} (push_back : A -> Certificate -> Certificate)
    (xs : list A) (c : Certificate) : Certificate :=
  fold_left (fun c x => push_back x c) xs c.

Section Entries.
Context {A : Type} `{!Asn1 A} (wf : A -> Prop) `{!SelfDelimiting A wf}.
Variable push_back : A -> Certificate -> Certificate.

Lemma encodeTo_nonempty x : wf x -> (0 < length (encodeTo x))%nat.
Proof.
  intros Hx.
  assert (Hs : holds (encodeTo x) (StringSource (encodeTo x))).
  { split; [exists []; cbn; now rewrite app_nil_r|constructor]. }
  pose proof (decodeFrom_encodeTo x _ Hx Hs) as E.
  apply decodeFrom_consumes in E. rewrite input_advance in E.
  cbn [input StringSource] in E. lia.
Qed.

(** The loop reads the entries that were written, in order, and stops at
    the end of the sequence. *)
Lemma while_reads_entries xs : forall fuel (c : Certificate) s outer,
  Forall wf xs ->
  frames s = Definite (N.of_nat (length (flat_map encodeTo xs))) :: outer ->
  holds (flat_map encodeTo xs) s ->
  (length (input s) < fuel)%nat ->
  while_not_EndReached fuel (read_entry push_back) c s
  = (push_all push_back xs c,
     inr (tt, advance (N.of_nat (length (flat_map encodeTo xs))) s)).
Proof.
  induction xs as [|x xs IH]; intros fuel c s outer Hwf Hfr Hs Hfuel;
    (destruct fuel as [|fuel]; [lia|]); cbn [while_not_EndReached].
  - unfold EndReached. rewrite Hfr. cbn. now rewrite advance_0.
  - inversion Hwf as [|? ? Hx Hxs]; subst.
    pose proof (encodeTo_nonempty x Hx) as Hpos.
    cbn [flat_map] in *. rewrite length_app in *.
    unfold EndReached. rewrite Hfr.
    destruct (N.eqb_spec (N.of_nat (length (encodeTo x)
                                    + length (flat_map encodeTo xs))) 0);
      [lia|].
    apply holds_app in Hs as [Hx' Hxs'].
    unfold read_entry. unfold m_bind at 1.
    erewrite lift_run by (apply decodeFrom_encodeTo; eassumption).
    unfold assign at 1.
    erewrite (IH fuel _ _ (map (reduce (N.of_nat (length (encodeTo x)))) outer));
      [rewrite advance_advance; repeat f_equal; lia|assumption| |assumption|].
    + cbn [advance frames]. rewrite Hfr. cbn [map reduce]. repeat f_equal. lia.
    + rewrite input_advance. pose proof (holds_length _ _ Hx'). lia.
Qed.

(** Whatever the loop meets, it has appended the entries read so far. *)
Lemma while_appends fuel : forall (c c' : Certificate) s r,
  while_not_EndReached fuel (read_entry push_back) c s = (c', r) ->
  exists xs, c' = push_all push_back xs c.
Proof.
  induction fuel as [|fuel IH]; intros c c' s r; cbn [while_not_EndReached].
  - intros [= <- _]. now exists [].
  - destruct (EndReached s); [intros [= <- _]; now exists []|].
    unfold m_bind at 1, read_entry, m_bind at 1, lift, assign.
    destruct (decodeFrom s) as [e|[x s1]]; [intros [= <- _]; now exists []|].
    intros E. apply IH in E as [xs ->]. now exists (x :: xs).
Qed.

(** The loop never runs out of rounds: any number of rounds above the
    length of the input gives the same result. *)
Lemma while_fuel fuel1 : forall fuel2 (c : Certificate) s,
  (length (input s) < fuel1)%nat -> (length (input s) < fuel2)%nat ->
  while_not_EndReached fuel1 (read_entry push_back) c s
  = while_not_EndReached fuel2 (read_entry push_back) c s.
Proof.
  induction fuel1 as [|fuel1 IH]; intros fuel2 c s H1 H2; [lia|].
  destruct fuel2 as [|fuel2]; [lia|]. cbn [while_not_EndReached].
  destruct (EndReached s); [reflexivity|].
  unfold read_entry, m_bind, lift, assign.
  destruct (decodeFrom s) as [e|[x s1]] eqn:E; [reflexivity|].
  apply decodeFrom_consumes in E. apply IH; lia.
Qed.

End Entries.

Lemma push_all_subjectDescription xs (c : Certificate) :
  push_all push_back_subjectDescription xs c
  = set_subjectDescriptionList (m_subjectDescriptionList c ++ xs) c.
Proof.
  revert c. induction xs as [|x xs IH]; intros c; cbn.
  - rewrite app_nil_r. now destruct c.
  - unfold push_all in IH. rewrite IH. cbn. now rewrite <- app_assoc.
Qed.

Lemma push_all_extension xs (c : Certificate) :
  push_all push_back_extension xs c
  = set_extensionList (m_extensionList c ++ xs) c.
Proof.
  revert c. induction xs as [|x xs IH]; intros c; cbn.
  - rewrite app_nil_r. now destruct c.
  - unfold push_all in IH. rewrite IH. cbn. now rewrite <- app_assoc.
Qed.

(** *** What a failed [decode] leaves behind *)

(** The certificate after the validity was read, after the subject
    descriptions [sds] were read, and after the key and the extensions
    [exts] were read. *)
Definition after_validity (t0 t1 : TimePoint) (d : Certificate) :=
  set_notAfter t1 (set_notBefore t0 d).
Definition after_subject (t0 t1 : TimePoint)
    (sds : list SubjectDescription) (d : Certificate) :=
  set_subjectDescriptionList sds (after_validity t0 t1 d).
Definition after_key (t0 t1 : TimePoint) (sds : list SubjectDescription)
    (k : PublicKey) (exts : list Extension) (d : Certificate) :=
  set_extensionList exts (set_key k (after_subject t0 t1 sds d)).

(** How far [decode] got in [d'], starting from [d]. *)
Inductive progress (d : Certificate) : Certificate -> Prop :=
| at_start : progress d d
| at_notBefore t0 : progress d (set_notBefore t0 d)
| at_validity t0 t1 : progress d (after_validity t0 t1 d)
| at_subject t0 t1 sds : progress d (after_subject t0 t1 sds d)
| at_key t0 t1 sds k exts : progress d (after_key t0 t1 sds k exts d).

Lemma decode_progress (d d' : Certificate) r :
  decode d = (d', r) -> progress d d'.
Proof.
  unfold decode, decode_idCert. set (s0 := StringSource (getContent d)).
  clearbody s0. unfold m_bind, lift, assign, m_ret.
  destruct (BERSequenceDecoder s0) as [?|[_ s1]];
    [intros [= <- _]; constructor|].
  destruct (BERSequenceDecoder s1) as [?|[_ s2]];
    [intros [= <- _]; constructor|].
  destruct (BERDecodeTime s2) as [?|[t0 s3]];
    [intros [= <- _]; constructor|].
  destruct (BERDecodeTime s3) as [?|[t1 s4]];
    [intros [= <- _]; constructor|].
  destruct (MessageEnd s4) as [?|[_ s5]];
    [intros [= <- _]; apply at_validity|].
  destruct (BERSequenceDecoder s5) as [?|[_ s6]];
    [intros [= <- _]; apply (at_subject _ t0 t1 [])|].
  destruct (while_loop _ _ s6) as [d1 r1] eqn:Hloop.
  apply (while_appends push_back_subjectDescription) in Hloop as [sds ->].
  rewrite push_all_subjectDescription. cbn [m_subjectDescriptionList
    set_subjectDescriptionList app].
  destruct r1 as [?|[_ s7]]; [intros [= <- _]; apply at_subject|].
  destruct (MessageEnd s7) as [?|[_ s8]];
    [intros [= <- _]; apply at_subject|].
  destruct (decodeFrom s8) as [?|[k s9]];
    [intros [= <- _]; apply at_subject|].
  destruct (EndReached s9); cbn [negb].
  - destruct (MessageEnd s9) as [?|[_ s10]];
      intros [= <- _]; apply (at_key _ t0 t1 sds k []).
  - destruct (BERSequenceDecoder s9) as [?|[_ s10]];
      [intros [= <- _]; apply (at_key _ t0 t1 sds k [])|].
    destruct (while_loop _ _ s10) as [d2 r2] eqn:Hloop.
    apply (while_appends push_back_extension) in Hloop as [exts ->].
    rewrite push_all_extension. cbn [m_extensionList set_extensionList app].
    destruct r2 as [?|[_ s11]];
      [intros [= <- _]; apply (at_key _ t0 t1 sds k exts)|].
    destruct (MessageEnd s11) as [?|[_ s12]];
      [intros [= <- _]; apply (at_key _ t0 t1 sds k exts)|].
    destruct (MessageEnd s12) as [?|[_ s13]];
      intros [= <- _]; apply (at_key _ t0 t1 sds k exts).
Qed.

(** C8: [isTooEarly] holds exactly before [m_notBefore], [isTooLate]
    exactly after [m_notAfter]; neither holds exactly from [m_notBefore]
    to [m_notAfter], both ends included. *)
Theorem validity_window (now : TimePoint) (c : Certificate) :
  (isTooEarly now c = true <-> (now < m_notBefore c)%Z)
  /\ (isTooLate now c = true <-> (m_notAfter c < now)%Z)
  /\ (isTooEarly now c = false /\ isTooLate now c = false
      <-> (m_notBefore c <= now <= m_notAfter c)%Z).
Proof.
  unfold isTooEarly, isTooLate. rewrite Z.gtb_ltb.
  destruct (Z.ltb_spec now (m_notBefore c));
    destruct (Z.ltb_spec (m_notAfter c) now);
    repeat split; intros; try discriminate; try lia; intuition lia.
Qed.

(** *** More on [encode], [decode] and the validity window *)

Lemma lift_fail {A B} (d : Dec A) (f : A -> M B) (c : Certificate) s e :
  d s = inl e -> m_bind (lift d) f c s = (c, inl e).
Proof. unfold m_bind, lift. now intros ->. Qed.

Lemma m_bind_assoc {A B C} (m : M A) (f : A -> M B) (g : B -> M C)
    (c : Certificate) s :
  m_bind (m_bind m f) g c s = m_bind m (fun x => m_bind (f x) g) c s.
Proof. unfold m_bind. now destruct (m c s) as [c' [e|[x s']]]. Qed.

Lemma ret_run {A B} (x : A) (f : A -> M B) (c : Certificate) s :
  m_bind (m_ret x) f c s = f x c s.
Proof. reflexivity. Qed.

Lemma while_run {B} (body : M unit) (f : unit -> M B) (c c' : Certificate)
    s r :
  while_not_EndReached (S (length (input s))) body c s = (c', r) ->
  m_bind (while_loop body) f c s
  = match r with
    | inl e => (c', inl e)
    | inr (x, s') => f x c' s'
    end.
Proof. unfold m_bind, while_loop. now intros ->. Qed.

(** What the loop appends and how it ends does not depend on the
    certificate it appends to. *)
Lemma while_oblivious {A} `{!Asn1 A}
    (push_back : A -> Certificate -> Certificate) fuel : forall s,
  exists xs r, forall c : Certificate,
    while_not_EndReached fuel (read_entry push_back) c s
    = (push_all push_back xs c, r).
Proof.
  induction fuel as [|fuel IH]; intros s; cbn [while_not_EndReached].
  - now exists [], (inl BERDecodeErr).
  - destruct (EndReached s); [now exists [], (inr (tt, s))|].
    destruct (decodeFrom s) as [e|[x s1]] eqn:E.
    + exists [], (inl e). intros c. unfold read_entry.
      rewrite m_bind_assoc. now erewrite lift_fail by exact E.
    + destruct (IH s1) as (xs & r & Hloop). exists (x :: xs), r.
      intros c. unfold read_entry. rewrite m_bind_assoc.
      erewrite lift_run by exact E. rewrite assign_run. apply Hloop.
Qed.

(** One step of [decode_idCert], given what the reads return. *)
Ltac decode_step :=
  rewrite ?m_bind_assoc;
  first
    [ rewrite assign_run
    | rewrite ret_run
    | erewrite lift_run by eassumption
    | erewrite lift_fail by eassumption
    | erewrite while_run by
        match goal with H : forall c, _ = _ |- _ => apply H end;
      cbv beta iota
    | rewrite (m_bind_cond (fun idCert => negb (EndReached idCert)));
      cbv beta;
      match goal with H : EndReached _ = _ |- _ => rewrite H end;
      cbn [negb]
    | unfold lift at 1;
      match goal with H : MessageEnd _ = _ |- _ => rewrite H end ].

Ltac decode_steps :=
  intros; unfold decode_idCert; repeat decode_step;
  rewrite ?push_all_subjectDescription, ?push_all_extension;
  try reflexivity.

(** How [decode_idCert] ends depends on the bytes only, and when it ends
    well all five members have been assigned values read from the bytes. *)
Lemma decode_idCert_oblivious (s0 : BER) :
  exists r : Error + unit * BER,
    (forall d : Certificate, snd (decode_idCert d s0) = r)
    /\ (forall x, r = inr x ->
        exists t0 t1 sds k exts, forall d : Certificate,
          fst (decode_idCert d s0) = after_key t0 t1 sds k exts d).
Proof.
  destruct (BERSequenceDecoder s0) as [e|[[] s1]] eqn:E1;
    [exists (inl e); split; [decode_steps|discriminate]|].
  destruct (BERSequenceDecoder s1) as [e|[[] s2]] eqn:E2;
    [exists (inl e); split; [decode_steps|discriminate]|].
  destruct (BERDecodeTime s2) as [e|[t0 s3]] eqn:E3;
    [exists (inl e); split; [decode_steps|discriminate]|].
  destruct (BERDecodeTime s3) as [e|[t1 s4]] eqn:E4;
    [exists (inl e); split; [decode_steps|discriminate]|].
  destruct (MessageEnd s4) as [e|[[] s5]] eqn:E5;
    [exists (inl e); split; [decode_steps|discriminate]|].
  destruct (BERSequenceDecoder s5) as [e|[[] s6]] eqn:E6;
    [exists (inl e); split; [decode_steps|discriminate]|].
  destruct (while_oblivious push_back_subjectDescription
              (S (length (input s6))) s6) as (sds & r1 & Hsds).
  destruct r1 as [e|[[] s7]];
    [exists (inl e); split; [decode_steps|discriminate]|].
  destruct (MessageEnd s7) as [e|[[] s8]] eqn:E7;
    [exists (inl e); split; [decode_steps|discriminate]|].
  destruct (decodeFrom s8) as [e|[k s9]] eqn:E8;
    [exists (inl e); split; [decode_steps|discriminate]|].
  destruct (EndReached s9) eqn:E9.
  - destruct (MessageEnd s9) as [e|[[] s10]] eqn:E10;
      [exists (inl e); split; [decode_steps|discriminate]|].
    exists (inr (tt, s10)). split; [decode_steps|].
    intros _ _. exists t0, t1, sds, k, []. decode_steps.
  - destruct (BERSequenceDecoder s9) as [e|[[] s10]] eqn:E10;
      [exists (inl e); split; [decode_steps|discriminate]|].
    destruct (while_oblivious push_back_extension
                (S (length (input s10))) s10) as (exts & r2 & Hexts).
    destruct r2 as [e|[[] s11]];
      [exists (inl e); split; [decode_steps|discriminate]|].
    destruct (MessageEnd s11) as [e|[[] s12]] eqn:E11;
      [exists (inl e); split; [decode_steps|discriminate]|].
    destruct (MessageEnd s12) as [e|[[] s13]] eqn:E12;
      [exists (inl e); split; [decode_steps|discriminate]|].
    exists (inr (tt, s13)). split; [decode_steps|].
    intros _ _. exists t0, t1, sds, k, exts. decode_steps.
Qed.

(** *** The point at which [decode] fails *)

(** The entries that a loop
    [while (!seq.EndReached()) list.push_back(Entry(seq))] started at [s]
    has read when it is at [s']. *)
Inductive reads_entries {A} `{!Asn1 A} : BER -> list A -> BER -> Prop :=
| reads_none s : reads_entries s [] s
| reads_next s x s1 xs s' :
    EndReached s = false ->
    decodeFrom s = inr (x, s1) ->
    reads_entries s1 xs s' ->
    reads_entries s (x :: xs) s'.

(** The members that [decode] has assigned when it stops: none, or
    [m_notBefore], or also [m_notAfter], or also the subject description
    list, or all five. *)
Inductive Assigned :=
| nothing
| the_notBefore (t0 : TimePoint)
| the_validity (t0 t1 : TimePoint)
| up_to_subject (t0 t1 : TimePoint) (sds : list SubjectDescription)
| up_to_extensions (t0 t1 : TimePoint) (sds : list SubjectDescription)
    (k : PublicKey) (exts : list Extension).

Definition assigned_to (a : Assigned) (d : Certificate) : Certificate :=
  match a with
  | nothing => d
  | the_notBefore t0 => set_notBefore t0 d
  | the_validity t0 t1 => after_validity t0 t1 d
  | up_to_subject t0 t1 sds => after_subject t0 t1 sds d
  | up_to_extensions t0 t1 sds k exts => after_key t0 t1 sds k exts d
  end.

Section Failure.
Variable content : list byte.

(** How far the reads get on [content], and where the decoder is then:
    the first timestamp was read; both were; the sequence of the subject
    descriptions was opened; it was read to its end; the key was read. *)
Definition read_notBefore (t0 : TimePoint) (s : BER) : Prop :=
  (BERSequenceDecoder ;; BERSequenceDecoder ;; BERDecodeTime)%dec
    (StringSource content) = inr (t0, s).

Definition read_validity (t0 t1 : TimePoint) (s : BER) : Prop :=
  exists s3, read_notBefore t0 s3 /\ BERDecodeTime s3 = inr (t1, s).

Definition opened_subject (t0 t1 : TimePoint) (s : BER) : Prop :=
  exists s4, read_validity t0 t1 s4
    /\ (MessageEnd ;; BERSequenceDecoder)%dec s4 = inr (tt, s).

Definition read_subject (t0 t1 : TimePoint)
    (sds : list SubjectDescription) (s : BER) : Prop :=
  exists s6, opened_subject t0 t1 s6
    /\ reads_entries s6 sds s /\ EndReached s = true.

Definition read_key (t0 t1 : TimePoint) (sds : list SubjectDescription)
    (k : PublicKey) (s : BER) : Prop :=
  exists s7, read_subject t0 t1 sds s7
    /\ (MessageEnd ;; decodeFrom)%dec s7 = inr (k, s).

(** The reads that can fail with [e], and what has been assigned at each
    of them. *)
Inductive fails_with (e : Error) : Assigned -> Prop :=
| fails_before_notBefore :
    (BERSequenceDecoder ;; BERSequenceDecoder ;; BERDecodeTime)%dec
      (StringSource content) = inl e ->
    fails_with e nothing
| fails_at_notAfter t0 s :
    read_notBefore t0 s ->
    BERDecodeTime s = inl e ->
    fails_with e (the_notBefore t0)
| fails_closing_validity t0 t1 s :
    read_validity t0 t1 s ->
    MessageEnd s = inl e ->
    fails_with e (the_validity t0 t1)
| fails_opening_subject t0 t1 s s' :
    read_validity t0 t1 s ->
    MessageEnd s = inr (tt, s') ->
    BERSequenceDecoder s' = inl e ->
    fails_with e (up_to_subject t0 t1 [])
| fails_in_subject t0 t1 sds s s' :
    opened_subject t0 t1 s ->
    reads_entries s sds s' ->
    EndReached s' = false ->
    decodeFrom (A := SubjectDescription) s' = inl e ->
    fails_with e (up_to_subject t0 t1 sds)
| fails_at_key t0 t1 sds s :
    read_subject t0 t1 sds s ->
    (MessageEnd ;; decodeFrom (A := PublicKey))%dec s = inl e ->
    fails_with e (up_to_subject t0 t1 sds)
| fails_closing_record t0 t1 sds k s :
    read_key t0 t1 sds k s ->
    EndReached s = true ->
    MessageEnd s = inl e ->
    fails_with e (up_to_extensions t0 t1 sds k [])
| fails_opening_extensions t0 t1 sds k s :
    read_key t0 t1 sds k s ->
    EndReached s = false ->
    BERSequenceDecoder s = inl e ->
    fails_with e (up_to_extensions t0 t1 sds k [])
| fails_in_extensions t0 t1 sds k exts s s1 s' :
    read_key t0 t1 sds k s ->
    EndReached s = false ->
    BERSequenceDecoder s = inr (tt, s1) ->
    reads_entries s1 exts s' ->
    EndReached s' = false ->
    decodeFrom (A := Extension) s' = inl e ->
    fails_with e (up_to_extensions t0 t1 sds k exts)
| fails_after_extensions t0 t1 sds k exts s s1 s' :
    read_key t0 t1 sds k s ->
    EndReached s = false ->
    BERSequenceDecoder s = inr (tt, s1) ->
    reads_entries s1 exts s' ->
    EndReached s' = true ->
    (MessageEnd ;; MessageEnd)%dec s' = inl e ->
    fails_with e (up_to_extensions t0 t1 sds k exts).

End Failure.

(** *** What a failed [decode] has assigned *)

Lemma dec_bind_inr {A B} (m : Dec A) (f : A -> Dec B) s y s' :
  dec_bind m f s = inr (y, s') ->
  exists x s1, m s = inr (x, s1) /\ f x s1 = inr (y, s').
Proof.
  unfold dec_bind. destruct (m s) as [e|[x s1]]; [discriminate|].
  intros H. now exists x, s1.
Qed.

Lemma dec_bind_inl {A B} (m : Dec A) (f : A -> Dec B) s e :
  dec_bind m f s = inl e ->
  m s = inl e \/ exists x s1, m s = inr (x, s1) /\ f x s1 = inl e.
Proof.
  unfold dec_bind. destruct (m s) as [e'|[x s1]]; intros H.
  - left. now injection H as ->.
  - right. now exists x, s1.
Qed.

Section Loops.
Context {A : Type} `{!Asn1 A}.
Variable push_back : A -> Certificate -> Certificate.

(** The loop ends where the entries end, or throws where an entry cannot
    be read; it has appended the entries read. *)
Lemma while_reads fuel : forall s,
  (length (input s) < fuel)%nat ->
  exists xs s', reads_entries s xs s'
    /\ ((EndReached s' = true
         /\ forall c : Certificate,
              while_not_EndReached fuel (read_entry push_back) c s
              = (push_all push_back xs c, inr (tt, s')))
        \/ (EndReached s' = false
            /\ exists e, decodeFrom s' = inl e
               /\ forall c : Certificate,
                    while_not_EndReached fuel (read_entry push_back) c s
                    = (push_all push_back xs c, inl e))).
Proof.
  induction fuel as [|fuel IH]; intros s Hfuel; [lia|].
  cbn [while_not_EndReached].
  destruct (EndReached s) eqn:Eend.
  - exists [], s. split; [constructor|]. left. now split.
  - destruct (decodeFrom s) as [e|[x s1]] eqn:E.
    + exists [], s. split; [constructor|]. right. split; [assumption|].
      exists e. split; [assumption|]. intros c. unfold read_entry.
      rewrite m_bind_assoc. now erewrite lift_fail by exact E.
    + destruct (IH s1) as (xs & s' & Hr & Hres).
      { apply decodeFrom_consumes in E. lia. }
      exists (x :: xs), s'. split; [econstructor; eassumption|].
      destruct Hres as [[Hend Hloop]|[Hend (e & He & Hloop)]];
        [left; split; [assumption|]
        |right; split; [assumption|]; exists e; split; [assumption|]];
        intros c; unfold read_entry; rewrite m_bind_assoc;
        erewrite lift_run by exact E; rewrite assign_run; apply Hloop.
Qed.

Lemma reads_entries_loop s xs s' :
  reads_entries s xs s' ->
  forall fuel (c : Certificate), (length (input s) < fuel)%nat ->
    (EndReached s' = true ->
     while_not_EndReached fuel (read_entry push_back) c s
     = (push_all push_back xs c, inr (tt, s')))
    /\ (forall e, EndReached s' = false -> decodeFrom s' = inl e ->
        while_not_EndReached fuel (read_entry push_back) c s
        = (push_all push_back xs c, inl e)).
Proof.
  induction 1 as [s|s x s1 xs s' Hend Hx Hxs IH]; intros fuel c Hfuel;
    (destruct fuel as [|fuel]; [lia|]); cbn [while_not_EndReached].
  - split.
    + now intros ->.
    + intros e -> E. unfold read_entry. rewrite m_bind_assoc.
      now erewrite lift_fail by exact E.
  - rewrite Hend. unfold read_entry. rewrite m_bind_assoc.
    erewrite lift_run by exact Hx. rewrite assign_run.
    apply IH. apply decodeFrom_consumes in Hx. lia.
Qed.

Lemma reads_entries_ends s xs s' :
  reads_entries s xs s' -> EndReached s' = true ->
  forall c : Certificate,
    while_not_EndReached (S (length (input s))) (read_entry push_back) c s
    = (push_all push_back xs c, inr (tt, s')).
Proof.
  intros Hr Hend c.
  exact (proj1 (reads_entries_loop s xs s' Hr _ c (Nat.lt_succ_diag_r _))
               Hend).
Qed.

Lemma reads_entries_throws s xs s' e :
  reads_entries s xs s' -> EndReached s' = false ->
  decodeFrom s' = inl e ->
  forall c : Certificate,
    while_not_EndReached (S (length (input s))) (read_entry push_back) c s
    = (push_all push_back xs c, inl e).
Proof.
  intros Hr Hend He c.
  exact (proj2 (reads_entries_loop s xs s' Hr _ c (Nat.lt_succ_diag_r _))
               e Hend He).
Qed.

End Loops.

(** The primitive reads behind the reads of several steps. *)
Ltac split_reads :=
  repeat match goal with
         | H : read_key _ _ _ _ _ _ |- _ => destruct H as (? & H & ?)
         | H : read_subject _ _ _ _ _ |- _ => destruct H as (? & H & ? & ?)
         | H : opened_subject _ _ _ _ |- _ => destruct H as (? & H & ?)
         | H : read_validity _ _ _ _ |- _ => destruct H as (? & H & ?)
         | H : read_notBefore _ _ _ |- _ => unfold read_notBefore in H
         | H : dec_bind _ _ _ = inr _ |- _ =>
             apply dec_bind_inr in H as ([] & ? & ? & H)
         end.

Lemma read_notBefore_intro content s1 s2 t0 s3 :
  BERSequenceDecoder (StringSource content) = inr (tt, s1) ->
  BERSequenceDecoder s1 = inr (tt, s2) ->
  BERDecodeTime s2 = inr (t0, s3) ->
  read_notBefore content t0 s3.
Proof.
  intros E1 E2 E3. unfold read_notBefore, dec_bind. now rewrite E1, E2.
Qed.

Lemma opened_subject_intro content t0 t1 s4 s5 s6 :
  read_validity content t0 t1 s4 ->
  MessageEnd s4 = inr (tt, s5) ->
  BERSequenceDecoder s5 = inr (tt, s6) ->
  opened_subject content t0 t1 s6.
Proof.
  intros R E5 E6. exists s4. split; [assumption|].
  unfold dec_bind. now rewrite E5.
Qed.

Lemma read_key_intro content t0 t1 sds s7 s8 k s9 :
  read_subject content t0 t1 sds s7 ->
  MessageEnd s7 = inr (tt, s8) ->
  decodeFrom s8 = inr (k, s9) ->
  read_key content t0 t1 sds k s9.
Proof.
  intros R E7 E8. exists s7. split; [assumption|].
  unfold dec_bind. now rewrite E7.
Qed.

(** Every run of [decode_idCert] on the content of [d] ends at one of the
    points of [fails_with], or returns. *)
Lemma decode_idCert_outcome (d : Certificate) :
  exists a r,
    decode_idCert d (StringSource (getContent d)) = (assigned_to a d, r)
    /\ forall e, r = inl e -> fails_with (getContent d) e a.
Proof.
  set (content := getContent d). set (s0 := StringSource content).
  destruct (BERSequenceDecoder s0) as [e|[[] s1]] eqn:E1.
  { exists nothing, (inl e). split; [decode_steps|].
    intros ? [= <-]. constructor. fold s0. unfold dec_bind. now rewrite E1. }
  destruct (BERSequenceDecoder s1) as [e|[[] s2]] eqn:E2.
  { exists nothing, (inl e). split; [decode_steps|].
    intros ? [= <-]. constructor. fold s0. unfold dec_bind.
    now rewrite E1, E2. }
  destruct (BERDecodeTime s2) as [e|[t0 s3]] eqn:E3.
  { exists nothing, (inl e). split; [decode_steps|].
    intros ? [= <-]. constructor. fold s0. unfold dec_bind.
    now rewrite E1, E2, E3. }
  pose proof (read_notBefore_intro content _ _ _ _ E1 E2 E3) as R1.
  destruct (BERDecodeTime s3) as [e|[t1 s4]] eqn:E4.
  { exists (the_notBefore t0), (inl e). split; [decode_steps|].
    intros ? [= <-]. now apply (fails_at_notAfter content e t0 s3). }
  assert (R2 : read_validity content t0 t1 s4) by now exists s3.
  destruct (MessageEnd s4) as [e|[[] s5]] eqn:E5.
  { exists (the_validity t0 t1), (inl e). split; [decode_steps|].
    intros ? [= <-]. now apply (fails_closing_validity content e t0 t1 s4). }
  destruct (BERSequenceDecoder s5) as [e|[[] s6]] eqn:E6.
  { exists (up_to_subject t0 t1 []), (inl e). split; [decode_steps|].
    intros ? [= <-].
    now apply (fails_opening_subject content e t0 t1 s4 s5). }
  pose proof (opened_subject_intro content _ _ _ _ _ R2 E5 E6) as R3.
  destruct (while_reads push_back_subjectDescription
              (S (length (input s6))) s6) as (sds & s7 & Hsds & Hloop);
    [lia|].
  destruct Hloop as [[Hend Hloop]|[Hend (e & He & Hloop)]]; cycle 1.
  { exists (up_to_subject t0 t1 sds), (inl e). split; [decode_steps|].
    intros ? [= <-].
    now apply (fails_in_subject content e t0 t1 sds s6 s7). }
  assert (R4 : read_subject content t0 t1 sds s7) by now exists s6.
  destruct (MessageEnd s7) as [e|[[] s8]] eqn:E7.
  { exists (up_to_subject t0 t1 sds), (inl e). split; [decode_steps|].
    intros ? [= <-]. apply (fails_at_key content e t0 t1 sds s7 R4).
    unfold dec_bind. now rewrite E7. }
  destruct (decodeFrom s8) as [e|[k s9]] eqn:E8.
  { exists (up_to_subject t0 t1 sds), (inl e). split; [decode_steps|].
    intros ? [= <-]. apply (fails_at_key content e t0 t1 sds s7 R4).
    unfold dec_bind. now rewrite E7. }
  pose proof (read_key_intro content _ _ _ _ _ _ _ R4 E7 E8) as R5.
  destruct (EndReached s9) eqn:E9.
  - destruct (MessageEnd s9) as [e|[[] s10]] eqn:E10.
    + exists (up_to_extensions t0 t1 sds k []), (inl e).
      split; [decode_steps|]. intros ? [= <-].
      now apply (fails_closing_record content e t0 t1 sds k s9).
    + exists (up_to_extensions t0 t1 sds k []), (inr (tt, s10)).
      split; [decode_steps|]. discriminate.
  - destruct (BERSequenceDecoder s9) as [e|[[] s10]] eqn:E10.
    { exists (up_to_extensions t0 t1 sds k []), (inl e).
      split; [decode_steps|]. intros ? [= <-].
      now apply (fails_opening_extensions content e t0 t1 sds k s9). }
    destruct (while_reads push_back_extension
                (S (length (input s10))) s10)
      as (exts & s11 & Hexts & Hloop2); [lia|].
    destruct Hloop2 as [[Hend2 Hloop2]|[Hend2 (e & He & Hloop2)]]; cycle 1.
    { exists (up_to_extensions t0 t1 sds k exts), (inl e).
      split; [decode_steps|]. intros ? [= <-].
      now apply (fails_in_extensions content e t0 t1 sds k exts s9 s10 s11). }
    destruct (MessageEnd s11) as [e|[[] s12]] eqn:E11.
    { exists (up_to_extensions t0 t1 sds k exts), (inl e).
      split; [decode_steps|]. intros ? [= <-].
      apply (fails_after_extensions content e t0 t1 sds k exts s9 s10 s11);
        try assumption.
      unfold dec_bind. now rewrite E11. }
    destruct (MessageEnd s12) as [e|[[] s13]] eqn:E12.
    { exists (up_to_extensions t0 t1 sds k exts), (inl e).
      split; [decode_steps|]. intros ? [= <-].
      apply (fails_after_extensions content e t0 t1 sds k exts s9 s10 s11);
        try assumption.
      unfold dec_bind. now rewrite E11. }
    exists (up_to_extensions t0 t1 sds k exts), (inr (tt, s13)).
    split; [decode_steps|]. discriminate.
Qed.

(** A failure at one of the points of [fails_with] is a run of
    [decode_idCert] that throws there. *)
Lemma fails_with_decode_idCert (d : Certificate) e a :
  fails_with (getContent d) e a ->
  decode_idCert d (StringSource (getContent d)) = (assigned_to a d, inl e).
Proof.
  set (content := getContent d). set (s0 := StringSource content).
  intros [H|t0 s R H|t0 t1 s R H|t0 t1 s s' R H1 H2|t0 t1 sds s s' R Hr Hend H
          |t0 t1 sds s R H|t0 t1 sds k s R Hend H|t0 t1 sds k s R Hend H
          |t0 t1 sds k exts s s1 s' R Hend H1 Hr Hend' H
          |t0 t1 sds k exts s s1 s' R Hend H1 Hr Hend' H];
    split_reads.
  all: repeat match goal with
              | H : dec_bind _ _ _ = inl _ |- _ =>
                  apply dec_bind_inl in H as [H|([] & ? & ? & H)]
              end.
  all: repeat match goal with
              | Hr : reads_entries _ _ ?s', He : EndReached ?s' = true
                |- _ =>
                  first
                    [ pose proof (reads_entries_ends
                                    push_back_subjectDescription _ _ _ Hr He)
                    | pose proof (reads_entries_ends
                                    push_back_extension _ _ _ Hr He) ];
                  clear Hr
              | Hr : reads_entries _ _ ?s', He : EndReached ?s' = false,
                Hd : decodeFrom ?s' = inl _ |- _ =>
                  first
                    [ pose proof (reads_entries_throws
                                    push_back_subjectDescription _ _ _ _
                                    Hr He Hd)
                    | pose proof (reads_entries_throws
                                    push_back_extension _ _ _ _ Hr He Hd) ];
                  clear Hr
              end.
  all: decode_steps.
Qed.

(** C2, as amended: [decode] is not all-or-nothing.  It throws [e] and
    leaves [d'] exactly if one of its reads fails with [e] on the content
    and [d'] is the certificate with the members assigned that were read
    before that read, the other members being as before the call: none
    if the record or the validity could not be opened or the first
    timestamp could not be read; [m_notBefore] if the second timestamp
    could not be read; both timestamps if the validity could not be
    closed; also the subject description list, which then holds the
    descriptions read so far, up to the reading of the key; and from
    then on also the key and the extension list, which holds the
    extensions read so far. *)
Theorem decode_failure_keeps_assignments (d d' : Certificate) (e : Error) :
  decode d = (d', inl e)
  <-> exists a, fails_with (getContent d) e a /\ d' = assigned_to a d.
Proof.
  unfold decode. split.
  - destruct (decode_idCert_outcome d) as (a & r & -> & Hfails).
    destruct r as [e'|?]; [|discriminate].
    intros [= <- <-]. exists a. split; [now apply Hfails|reflexivity].
  - intros (a & Hfails & ->).
    now rewrite (fails_with_decode_idCert d e a Hfails).
Qed.

(** X7: [decode] never writes to the name, the content or the content
    type of the certificate, whether it returns or throws. *)
Theorem decode_keeps_data (d : Certificate) :
  getName (fst (decode d)) = getName d
  /\ getContent (fst (decode d)) = getContent d
  /\ getContentType (fst (decode d)) = getContentType d.
Proof.
  destruct (decode d) as [d' r] eqn:E. apply decode_progress in E.
  now destruct E.
Qed.

(** X8: a content that is empty or does not start with the tag of a
    sequence makes [decode] throw before it assigns anything: the
    certificate is as it was. *)
Theorem decode_rejects_non_sequence (d : Certificate) :
  head (getContent d) <> Some SEQUENCE_CONSTRUCTED ->
  decode d = (d, inl BERDecodeErr).
Proof.
  intros Hhead. unfold decode, decode_idCert.
  assert (E : BERSequenceDecoder (StringSource (getContent d))
              = inl BERDecodeErr).
  { revert Hhead. destruct (getContent d) as [|b rest]; intros Hhead;
      [reflexivity|].
    unfold BERSequenceDecoder.
    erewrite dec_bind_run.
    2:{ apply (GetByte_holds b rest).
        split; [exists []; cbn; now rewrite app_nil_r|constructor]. }
    destruct (Byte.eqb b SEQUENCE_CONSTRUCTED) eqn:Eb; [|reflexivity].
    apply byte_eqb_eq in Eb. subst b. now contradiction Hhead. }
  now erewrite lift_fail by exact E.
Qed.

(** X9: how [decode] ends depends on the content only, not on what the
    certificate held before; and after a [decode] that returns, all five
    decoded members hold values read from the content: nothing of their
    earlier values is left. *)
Theorem decode_determined_by_content (d1 d2 : Certificate) :
  getContent d1 = getContent d2 ->
  snd (decode d1) = snd (decode d2)
  /\ (snd (decode d1) = inr tt ->
      m_notBefore (fst (decode d1)) = m_notBefore (fst (decode d2))
      /\ m_notAfter (fst (decode d1)) = m_notAfter (fst (decode d2))
      /\ m_subjectDescriptionList (fst (decode d1))
         = m_subjectDescriptionList (fst (decode d2))
      /\ m_key (fst (decode d1)) = m_key (fst (decode d2))
      /\ m_extensionList (fst (decode d1))
         = m_extensionList (fst (decode d2))).
Proof.
  intros Hcontent. unfold decode. rewrite <- Hcontent.
  destruct (decode_idCert_oblivious (StringSource (getContent d1)))
    as (r & Hr & Hfields).
  pose proof (Hr d1) as H1. pose proof (Hr d2) as H2.
  destruct r as [e|x].
  - destruct (decode_idCert d1 _) as [c1 r1], (decode_idCert d2 _) as [c2 r2].
    cbn [snd] in *. subst. split; [reflexivity|discriminate].
  - destruct (Hfields x eq_refl) as (t0 & t1 & sds & k & exts & Hf).
    pose proof (Hf d1) as F1. pose proof (Hf d2) as F2.
    destruct (decode_idCert d1 _) as [c1 r1], (decode_idCert d2 _) as [c2 r2].
    cbn [fst snd] in *. subst. split; [reflexivity|]. intros _.
    repeat split.
Qed.

(** X10: [encode] writes the content and the content type and nothing
    else; the content depends on the five decoded members only, so encoding
    twice is encoding once. *)
Theorem encode_writes_content_only (c c2 : Certificate) :
  encode (encode c) = encode c
  /\ getContentType (encode c) = TYPE_KEY
  /\ getName (encode c) = getName c
  /\ m_notBefore (encode c) = m_notBefore c
  /\ m_notAfter (encode c) = m_notAfter c
  /\ m_subjectDescriptionList (encode c) = m_subjectDescriptionList c
  /\ m_key (encode c) = m_key c
  /\ m_extensionList (encode c) = m_extensionList c
  /\ (m_notBefore c2 = m_notBefore c ->
      m_notAfter c2 = m_notAfter c ->
      m_subjectDescriptionList c2 = m_subjectDescriptionList c ->
      m_key c2 = m_key c ->
      m_extensionList c2 = m_extensionList c ->
      getContent (encode c2) = getContent (encode c)).
Proof.
  repeat split.
  intros H1 H2 H3 H4 H5. cbn. unfold encode_idCert.
  now rewrite H1, H2, H3, H4, H5.
Qed.

(** X11: [isTooEarly] and [isTooLate] hold together exactly at the
    instants after [m_notAfter] and before [m_notBefore], so never for an
    interval that does not end before it starts; and the certificate that
    [Certificate()] makes is too early or too late at every instant. *)
Theorem validity_never_both (now : TimePoint) (c : Certificate)
    (key0 : PublicKey) :
  (isTooEarly now c = true /\ isTooLate now c = true
   <-> (m_notAfter c < now < m_notBefore c)%Z)
  /\ ((m_notBefore c <= m_notAfter c)%Z ->
      isTooEarly now c = false \/ isTooLate now c = false)
  /\ (isTooEarly now (Certificate_default key0 : Certificate) = true
      \/ isTooLate now (Certificate_default key0 : Certificate) = true).
Proof.
  unfold isTooEarly, isTooLate. rewrite !Z.gtb_ltb.
  cbn [m_notBefore m_notAfter Certificate_default].
  destruct (Z.ltb_spec now (m_notBefore c));
    destruct (Z.ltb_spec (m_notAfter c) now);
    destruct (Z.ltb_spec now TimePoint_max);
    destruct (Z.ltb_spec TimePoint_min now);
    repeat split; intros; try discriminate; try lia; auto;
    try (exfalso; unfold TimePoint_max, TimePoint_min in *; lia).
Qed.


(** *** Reading back what [encode] wrote *)

Section RoundTrip.
Variable wf_description : SubjectDescription -> Prop.
Variable wf_extension : Extension -> Prop.
Variable wf_key : PublicKey -> Prop.
Context `{!SelfDelimiting SubjectDescription wf_description}.
Context `{!SelfDelimiting Extension wf_extension}.
Context `{!SelfDelimiting PublicKey wf_key}.

(** A certificate within the schema: both ends of the validity interval
    can be written as text, every member is well-formed, and the encoding
    has a length that a 64-bit length field can hold.  The lists may be
    empty. *)
Definition in_schema (c : Certificate) : Prop :=
  representable (m_notBefore c)
  /\ representable (m_notAfter c)
  /\ Forall wf_description (m_subjectDescriptionList c)
  /\ wf_key (m_key c)
  /\ Forall wf_extension (m_extensionList c)
  /\ N.of_nat (length (encode_idCert c)) < 2 ^ 64.

(** The certificate [d] with the decoded fields of [c]. *)
Definition with_fields_of (c d : Certificate) : Certificate :=
  mkCertificate (getName d) (getContent d) (getContentType d)
    (m_notBefore c) (m_notAfter c) (m_subjectDescriptionList c)
    (m_key c) (m_extensionList c).

Lemma length_body_le body :
  (length body <= length (DERSequenceEncoder body))%nat.
Proof. unfold DERSequenceEncoder. cbn [length]. rewrite length_app. lia. Qed.

(** [decode] reads the record that [encode] wrote and does not look at
    what follows it in the content. *)
Lemma decode_encode_idCert_followed (c d : Certificate) (rest : list byte) :
  in_schema c ->
  getContent d = encode_idCert c ++ rest ->
  decode d = (with_fields_of c d, inr tt).
Proof.
  intros (Hnb & Hna & Hsd & Hk & Hext & Hlen) Hcontent.
  unfold decode. rewrite Hcontent. unfold encode_idCert in *.
  set (Vb := DEREncodeGeneralTime (m_notBefore c)
             ++ DEREncodeGeneralTime (m_notAfter c)) in *.
  set (Nb := flat_map encodeTo (m_subjectDescriptionList c)) in *.
  set (Eb := flat_map encodeTo (m_extensionList c)) in *.
  set (E := match m_extensionList c with
            | [] => []
            | _ => DERSequenceEncoder Eb
            end) in *.
  set (B := DERSequenceEncoder Vb ++ DERSequenceEncoder Nb
            ++ encodeTo (m_key c) ++ E) in *.
  assert (HB : N.of_nat (length B) < 2 ^ 64).
  { pose proof (length_body_le B). lia. }
  assert (HlenB : length B
                  = (length (DERSequenceEncoder Vb)
                     + (length (DERSequenceEncoder Nb)
                        + (length (encodeTo (m_key c)) + length E)))%nat).
  { subst B. now rewrite !length_app. }
  assert (HVb : N.of_nat (length Vb) < 2 ^ 64).
  { pose proof (length_body_le Vb). lia. }
  assert (HNb : N.of_nat (length Nb) < 2 ^ 64).
  { pose proof (length_body_le Nb). lia. }
  set (s0 := StringSource (DERSequenceEncoder B ++ rest)).
  assert (Hs0 : holds (DERSequenceEncoder B) s0).
  { split; [now exists rest|constructor]. }
  unfold decode_idCert.
  (* idCert *)
  destruct (BERSequenceDecoder_DER B s0 HB Hs0) as [E1 H1].
  erewrite lift_run by exact E1.
  apply holds_app in H1 as [HV H1].
  (* validity *)
  destruct (BERSequenceDecoder_DER Vb _ HVb HV) as [E2 H2].
  erewrite lift_run by exact E2.
  apply holds_app in H2 as [HT1 HT2].
  erewrite m_bind_run.
  2:{ erewrite lift_run by exact (BERDecodeTime_DER _ _ Hnb HT1).
      reflexivity. }
  erewrite m_bind_run.
  2:{ erewrite lift_run by exact (BERDecodeTime_DER _ _ Hna HT2).
      reflexivity. }
  rewrite advance_advance, <- Nat2N.inj_add, <- length_app. fold Vb.
  erewrite lift_run by apply MessageEnd_sequence.
  rewrite assign_run.
  (* name *)
  apply holds_app in H1 as [HN H1].
  destruct (BERSequenceDecoder_DER Nb _ HNb HN) as [E3 H3].
  erewrite lift_run by exact E3.
  erewrite m_bind_run.
  2:{ unfold while_loop.
      eapply (while_reads_entries wf_description
                push_back_subjectDescription);
        [exact Hsd|reflexivity|exact H3|lia]. }
  erewrite lift_run by apply MessageEnd_sequence.
  (* SubjectPublicKeyInfo *)
  apply holds_app in H1 as [HK H1].
  erewrite m_bind_run.
  2:{ erewrite lift_run by exact (decodeFrom_encodeTo _ _ Hk HK).
      reflexivity. }
  rewrite assign_run. rewrite !advance_advance in *.
  rewrite ?N.add_assoc in *.
  (* extensions *)
  rewrite push_all_subjectDescription. cbn [m_subjectDescriptionList
    set_subjectDescriptionList set_notAfter set_notBefore set_key
    set_extensionList app getName getContent getContentType m_notBefore
    m_notAfter m_key m_extensionList].
  rewrite (m_bind_cond (fun idCert => negb (EndReached idCert))).
  cbv beta. rewrite EndReached_in_sequence.
  destruct (m_extensionList c) as [|e exts] eqn:Eexts.
  - subst E. rewrite HlenB. cbn [length].
    replace (_ - _ =? 0) with true by (symmetry; apply N.eqb_eq; lia).
    cbn [negb]. unfold m_bind at 1, m_ret.
    erewrite lift_run_last.
    2:{ replace (_ + _ + _) with (N.of_nat (length B))
          by (cbn [length] in HlenB; lia).
        apply MessageEnd_sequence. }
    unfold with_fields_of.
    cbn [m_subjectDescriptionList set_subjectDescriptionList set_notAfter
         set_notBefore set_key set_extensionList app getName getContent
         getContentType m_notBefore m_notAfter m_key m_extensionList].
    now rewrite Eexts.
  - assert (HEb : N.of_nat (length Eb) < 2 ^ 64).
    { pose proof (length_body_le Eb). subst E. lia. }
    rewrite HlenB.
    replace (_ - _ =? 0) with false.
    2:{ symmetry. apply N.eqb_neq. subst E.
        unfold DERSequenceEncoder at 3. cbn [length]. lia. }
    cbn [negb].
    destruct (BERSequenceDecoder_DER Eb _ HEb H1) as [E4 H4].
    erewrite m_bind_run.
    2:{ erewrite lift_run by exact E4.
        erewrite m_bind_run.
        2:{ unfold while_loop.
            eapply (while_reads_entries wf_extension push_back_extension);
              [exact Hext|reflexivity|exact H4|lia]. }
        erewrite lift_run_last by apply MessageEnd_sequence.
        rewrite advance_advance. reflexivity. }
    erewrite lift_run_last.
    2:{ replace (_ + _ + _ + _) with (N.of_nat (length B)) by (subst E; lia).
        apply MessageEnd_sequence. }
    rewrite push_all_extension. unfold with_fields_of.
    cbn [m_subjectDescriptionList set_subjectDescriptionList set_notAfter
         set_notBefore set_key set_extensionList app getName getContent
         getContentType m_notBefore m_notAfter m_key m_extensionList].
    now rewrite Eexts.
Qed.

Lemma decode_encode_idCert (c d : Certificate) :
  in_schema c ->
  getContent d = encode_idCert c ->
  decode d = (with_fields_of c d, inr tt).
Proof.
  intros Hc Hd. apply (decode_encode_idCert_followed c d []); [exact Hc|].
  now rewrite app_nil_r.
Qed.

(** The text form carries whole seconds: [DEREncodeGeneralTime] writes
    the second that [t] lies in, [whole_second t]. *)
Definition whole_second (t : TimePoint) : TimePoint :=
  (t / ticks_per_second * ticks_per_second)%Z.

(** The instants of the years 0000 to 9999. *)
Definition four_digit_year (t : TimePoint) : Prop :=
  (-62167219200 <= t / ticks_per_second <= 253402300799)%Z.

(** A certificate that [encode] can write: as [in_schema], but for the
    timestamps, which may have a fraction of a second. *)
Definition writable (c : Certificate) : Prop :=
  four_digit_year (m_notBefore c)
  /\ four_digit_year (m_notAfter c)
  /\ Forall wf_description (m_subjectDescriptionList c)
  /\ wf_key (m_key c)
  /\ Forall wf_extension (m_extensionList c)
  /\ N.of_nat (length (encode_idCert c)) < 2 ^ 64.

(** The certificate as its encoding shows it. *)
Definition to_whole_seconds (c : Certificate) : Certificate :=
  set_notAfter (whole_second (m_notAfter c))
    (set_notBefore (whole_second (m_notBefore c)) c).

Lemma whole_second_seconds t :
  (whole_second t / ticks_per_second = t / ticks_per_second)%Z.
Proof. unfold whole_second. now rewrite Z_div_mult. Qed.

Lemma whole_second_fixed t :
  whole_second t = t <-> (t mod ticks_per_second = 0)%Z.
Proof.
  unfold whole_second.
  pose proof (Z_div_mod_eq_full t ticks_per_second). lia.
Qed.

Lemma DEREncodeGeneralTime_whole_second t :
  DEREncodeGeneralTime (whole_second t) = DEREncodeGeneralTime t.
Proof.
  unfold DEREncodeGeneralTime, toIsoString.
  now rewrite whole_second_seconds.
Qed.

Lemma encode_idCert_whole_seconds (c : Certificate) :
  encode_idCert (to_whole_seconds c) = encode_idCert c.
Proof.
  unfold encode_idCert, to_whole_seconds.
  cbn [m_notBefore m_notAfter m_subjectDescriptionList m_key
       m_extensionList set_notBefore set_notAfter].
  now rewrite !DEREncodeGeneralTime_whole_second.
Qed.

Lemma writable_in_schema (c : Certificate) :
  writable c -> in_schema (to_whole_seconds c).
Proof.
  intros (Hnb & Hna & Hsd & Hk & Hext & Hlen).
  unfold in_schema. rewrite encode_idCert_whole_seconds.
  unfold to_whole_seconds, representable.
  cbn [m_notBefore m_notAfter m_subjectDescriptionList m_key
       m_extensionList set_notBefore set_notAfter].
  rewrite !whole_second_seconds.
  unfold whole_second. rewrite !Z_mod_mult. repeat split; assumption || apply Hnb || apply Hna.
Qed.

(** What [decode] makes of the bytes that [encode] wrote. *)
Lemma decode_encode_writable (c d : Certificate) :
  writable c ->
  getContent d = getContent (encode c) ->
  decode d = (with_fields_of (to_whole_seconds c) d, inr tt).
Proof.
  intros Hc Hd. apply decode_encode_idCert.
  - now apply writable_in_schema.
  - now rewrite encode_idCert_whole_seconds.
Qed.

(** C1, as amended: for a certificate with both timestamps in the years
    0000 to 9999 and well-formed members, [decode] run on the bytes that
    [encode] produced succeeds and yields the subject description list,
    the key and the extension list as they were in the certificate
    encoded, and each timestamp cut down to the whole second: the two
    timestamps come back as they were exactly if they are whole numbers
    of seconds.  [d] is the object that holds the bytes, for one
    [encode c] itself. *)
Theorem decode_encode_roundtrip (c d : Certificate) :
  writable c ->
  getContent d = getContent (encode c) ->
  exists d', decode d = (d', inr tt)
    /\ m_notBefore d' = whole_second (m_notBefore c)
    /\ m_notAfter d' = whole_second (m_notAfter c)
    /\ m_subjectDescriptionList d' = m_subjectDescriptionList c
    /\ m_key d' = m_key c
    /\ m_extensionList d' = m_extensionList c
    /\ getName d' = getName d
    /\ getContent d' = getContent d
    /\ (m_notBefore d' = m_notBefore c
        <-> (m_notBefore c mod ticks_per_second = 0)%Z)
    /\ (m_notAfter d' = m_notAfter c
        <-> (m_notAfter c mod ticks_per_second = 0)%Z).
Proof.
  intros Hc Hd. exists (with_fields_of (to_whole_seconds c) d).
  split; [now apply decode_encode_writable|].
  cbn [with_fields_of to_whole_seconds m_notBefore m_notAfter
       m_subjectDescriptionList m_key m_extensionList getName getContent
       set_notBefore set_notAfter].
  repeat split; try apply whole_second_fixed.
Qed.

(** C3, as amended: [decode] does not compare the two timestamps.  For a
    certificate with both timestamps in the years 0000 to 9999 and
    well-formed members, the bytes written by [encode] are accepted
    whatever the order of the two ends of the validity interval, and the
    ends decoded are the ends written, cut down to whole seconds: the
    decoded interval satisfies [notBefore <= notAfter] exactly if the
    seconds of the ends written do, and it ends before it starts when
    the interval written does so by a second or more. *)
Theorem decode_keeps_validity_as_written (c d : Certificate) :
  writable c ->
  getContent d = getContent (encode c) ->
  exists d', decode d = (d', inr tt)
    /\ m_notBefore d' = whole_second (m_notBefore c)
    /\ m_notAfter d' = whole_second (m_notAfter c)
    /\ ((m_notBefore d' <= m_notAfter d')%Z
        <-> (m_notBefore c / ticks_per_second
             <= m_notAfter c / ticks_per_second)%Z)
    /\ ((m_notAfter c + ticks_per_second <= m_notBefore c)%Z ->
        (m_notAfter d' < m_notBefore d')%Z).
Proof.
  intros Hc Hd. exists (with_fields_of (to_whole_seconds c) d).
  split; [now apply decode_encode_writable|].
  cbn [with_fields_of to_whole_seconds m_notBefore m_notAfter
       set_notBefore set_notAfter].
  unfold whole_second, ticks_per_second.
  split; [reflexivity|]. split; [reflexivity|].
  split; [|intros Hgap]; Z.div_mod_to_equations; lia.
Qed.

(** X12: bytes that follow the record in the content are not looked at:
    [decode] returns the same members with and without them. *)
Theorem decode_ignores_trailing_bytes (c d : Certificate)
    (rest : list byte) :
  in_schema c ->
  getContent d = getContent (encode c) ++ rest ->
  exists d', decode d = (d', inr tt)
    /\ m_notBefore d' = m_notBefore c
    /\ m_notAfter d' = m_notAfter c
    /\ m_subjectDescriptionList d' = m_subjectDescriptionList c
    /\ m_key d' = m_key c
    /\ m_extensionList d' = m_extensionList c.
Proof.
  intros Hc Hd. exists (with_fields_of c d).
  split; [now apply (decode_encode_idCert_followed c d rest)|].
  repeat split.
Qed.

(** X13: within the schema the encoding tells the certificates apart: two
    certificates with the same encoded content have the same five
    members. *)
Theorem encode_injective (c1 c2 : Certificate) :
  in_schema c1 -> in_schema c2 ->
  getContent (encode c1) = getContent (encode c2) ->
  m_notBefore c1 = m_notBefore c2
  /\ m_notAfter c1 = m_notAfter c2
  /\ m_subjectDescriptionList c1 = m_subjectDescriptionList c2
  /\ m_key c1 = m_key c2
  /\ m_extensionList c1 = m_extensionList c2.
Proof.
  intros H1 H2 Heq.
  pose proof (decode_encode_idCert c1 (encode c1) H1 eq_refl) as D1.
  pose proof (decode_encode_idCert c2 (encode c1) H2 Heq) as D2.
  rewrite D1 in D2. unfold with_fields_of in D2.
  injection D2 as -> -> -> -> ->. repeat split.
Qed.

(** X14: the constructor from a [Data] whose content was written by
    [encode] makes the certificate with the members that were encoded and
    with the name, content and content type of the data. *)
Theorem Certificate_of_Data_encode (key0 : PublicKey) (c : Certificate)
    (name : NdnName.Name) (type : ContentType) :
  in_schema c ->
  Certificate_of_Data key0 name (getContent (encode c)) type
  = inr (mkCertificate name (getContent (encode c)) type
           (m_notBefore c) (m_notAfter c) (m_subjectDescriptionList c)
           (m_key c) (m_extensionList c)).
Proof.
  intros Hc. unfold Certificate_of_Data.
  erewrite (decode_encode_idCert c) by (exact Hc || reflexivity).
  reflexivity.
Qed.

End RoundTrip.
End Certificate.
End CertFacts.

(** ** Certificates with the members above *)
Module CertScenarios.
Import Asn1 Asn1Facts Time TimeFacts Cert CertFacts Members MemberFacts.
Local Open Scope Z_scope.

Abbreviation PlainCertificate :=
  (Cert.Certificate CertificateSubjectDescription CertificateExtension
                    PublicKey).

Definition within_schema : PlainCertificate -> Prop :=
  in_schema wf_SubjectDescription wf_Extension wf_PublicKey.

(** 2014-05-13 16:53:20 and 2017-07-14 02:40:00. *)
Definition may_2014 : TimePoint := 1400000000 * ticks_per_second.
Definition july_2017 : TimePoint := 1500000000 * ticks_per_second.

(** The attribute 2.5.4.41 with the value "alice". *)
Definition subject_alice : CertificateSubjectDescription :=
  mkSubjectDescription [x55; x04; x29] [x61; x6c; x69; x63; x65].

(** A sequence of a null algorithm and three key bits. *)
Definition some_key : PublicKey :=
  mkPublicKey (DERSequenceEncoder [x05; x00; x03; x02; x00; x07]).

Definition critical_extension : CertificateExtension :=
  mkExtension [x55; x1d; x13] true [x30; x00].

Definition alice_certificate : PlainCertificate :=
  mkCertificate ["alice"; "KEY1"; "ID-CERT"; "1"] [] TYPE_DEFAULT
    may_2014 july_2017 [subject_alice] some_key [critical_extension].

(** The same certificate with the ends of the validity interval swapped
    and without extensions. *)
Definition backwards_certificate : PlainCertificate :=
  mkCertificate ["alice"; "KEY1"; "ID-CERT"; "1"] [] TYPE_DEFAULT
    july_2017 may_2014 [subject_alice] some_key [].

(** A record cut off after the first timestamp: the outer sequence, the
    validity sequence and ["20140513165320Z"]. *)
Definition truncated_content : list byte :=
  [x30; x13; x30; x11; x18; x0f;
   x32; x30; x31; x34; x30; x35; x31; x33;
   x31; x36; x35; x33; x32; x30; x5a].

Definition fresh_certificate : PlainCertificate :=
  mkCertificate [] truncated_content TYPE_KEY TimePoint_max TimePoint_min
    [] PublicKey_default [].

Lemma representable_whole_seconds secs :
  -62167219200 <= secs <= 253402300799 ->
  representable (secs * ticks_per_second).
Proof.
  intros Hs. unfold representable.
  rewrite Z_mod_mult, Z_div_mult by reflexivity. now split.
Qed.

Ltac in_schema_by_evaluation :=
  unfold within_schema, in_schema;
  repeat match goal with
         | |- _ /\ _ => split
         | |- representable _ => apply representable_whole_seconds; lia
         | |- Forall _ _ => constructor
         | |- wf_SubjectDescription _ => unfold wf_SubjectDescription, small
         | |- wf_Extension _ => unfold wf_Extension, small
         | |- wf_PublicKey _ =>
             exists [x05; x00; x03; x02; x00; x07]; unfold small
         | |- (_ < _)%N => vm_compute; reflexivity
         | |- _ = _ => reflexivity
         end.

Lemma alice_certificate_within_schema : within_schema alice_certificate.
Proof. in_schema_by_evaluation. Qed.

Lemma backwards_certificate_within_schema :
  within_schema backwards_certificate.
Proof. in_schema_by_evaluation. Qed.

(** [alice_certificate] with a validity that starts half a second
    later, and the certificate with both ends half a second into the same
    seconds, the later one first. *)
Definition half_second : Z := 500000000.

Definition half_second_certificate : PlainCertificate :=
  mkCertificate ["alice"; "KEY1"; "ID-CERT"; "1"] [] TYPE_DEFAULT
    (may_2014 + half_second) july_2017 [subject_alice] some_key
    [critical_extension].

Definition backwards_half_second_certificate : PlainCertificate :=
  mkCertificate ["alice"; "KEY1"; "ID-CERT"; "1"] [] TYPE_DEFAULT
    (july_2017 + half_second) (may_2014 + half_second) [subject_alice]
    some_key [].

Ltac writable_by_evaluation :=
  unfold writable;
  repeat match goal with
         | |- _ /\ _ => split
         | |- four_digit_year _ =>
             unfold four_digit_year; split; apply Z.leb_le; vm_compute
         | |- Forall _ _ => constructor
         | |- wf_SubjectDescription _ => unfold wf_SubjectDescription, small
         | |- wf_Extension _ => unfold wf_Extension, small
         | |- wf_PublicKey _ =>
             exists [x05; x00; x03; x02; x00; x07]; unfold small
         | |- (_ < _)%N => vm_compute; reflexivity
         | |- _ = _ => reflexivity
         end.

(** C1 as stated fails: the certificate has a subject description, key
    info and a validity interval that starts before it ends, and [decode]
    accepts what [encode] wrote for it, but [m_notBefore] comes back half
    a second earlier. *)
Lemma decode_encode_drops_fraction :
  m_subjectDescriptionList half_second_certificate <> []
  /\ m_notBefore half_second_certificate
     <= m_notAfter half_second_certificate
  /\ wf_PublicKey (m_key half_second_certificate)
  /\ snd (decode (encode half_second_certificate)) = inr tt
  /\ m_notBefore (fst (decode (encode half_second_certificate)))
     = may_2014
  /\ m_notBefore (fst (decode (encode half_second_certificate)))
     <> m_notBefore half_second_certificate.
Proof.
  split; [discriminate|]. split; [vm_compute; discriminate|].
  split; [exists [x05; x00; x03; x02; x00; x07]; split;
          [reflexivity|unfold small; vm_compute; reflexivity]|].
  split; [vm_compute; reflexivity|].
  split; [vm_compute; reflexivity|].
  vm_compute. discriminate.
Qed.

Lemma decode_encode_roundtrip_witness :
  exists d', decode (encode half_second_certificate) = (d', inr tt)
    /\ m_notBefore d' = whole_second (may_2014 + half_second)
    /\ m_notAfter d' = whole_second july_2017
    /\ m_subjectDescriptionList d' = [subject_alice]
    /\ m_key d' = some_key
    /\ m_extensionList d' = [critical_extension]
    /\ getName d' = getName (encode half_second_certificate)
    /\ getContent d' = getContent (encode half_second_certificate)
    /\ (m_notBefore d' = may_2014 + half_second
        <-> (may_2014 + half_second) mod ticks_per_second = 0)
    /\ (m_notAfter d' = july_2017
        <-> july_2017 mod ticks_per_second = 0).
Proof.
  apply (decode_encode_roundtrip wf_SubjectDescription wf_Extension
           wf_PublicKey half_second_certificate
           (encode half_second_certificate)).
  - writable_by_evaluation.
  - reflexivity.
Defined.

(** C2 as stated fails: on a record cut off after the first timestamp
    [decode] throws, and [m_notBefore] holds the timestamp read. *)
Lemma decode_leaves_partial_result :
  decode fresh_certificate
  = (set_notBefore may_2014 fresh_certificate, inl BERDecodeErr)
  /\ m_notBefore (fst (decode fresh_certificate))
     <> m_notBefore fresh_certificate.
Proof.
  split; [vm_compute; reflexivity|].
  vm_compute. discriminate.
Qed.

Lemma decode_failure_keeps_assignments_witness :
  exists a, fails_with truncated_content BERDecodeErr a
    /\ set_notBefore may_2014 fresh_certificate
       = assigned_to a fresh_certificate.
Proof.
  apply (proj1 (decode_failure_keeps_assignments fresh_certificate
                  (set_notBefore may_2014 fresh_certificate) BERDecodeErr)).
  vm_compute. reflexivity.
Defined.

(** C3 as stated fails: a record whose validity interval ends before it
    starts is decoded without an error. *)
Lemma decode_accepts_backwards_validity :
  snd (decode (encode backwards_certificate)) = inr tt
  /\ m_notAfter (fst (decode (encode backwards_certificate)))
     < m_notBefore (fst (decode (encode backwards_certificate))).
Proof. split; vm_compute; reflexivity. Qed.

Lemma decode_keeps_validity_as_written_witness :
  exists d', decode (encode backwards_half_second_certificate) = (d', inr tt)
    /\ m_notBefore d' = whole_second (july_2017 + half_second)
    /\ m_notAfter d' = whole_second (may_2014 + half_second)
    /\ (m_notBefore d' <= m_notAfter d'
        <-> (july_2017 + half_second) / ticks_per_second
            <= (may_2014 + half_second) / ticks_per_second)
    /\ (may_2014 + half_second + ticks_per_second
        <= july_2017 + half_second ->
        m_notAfter d' < m_notBefore d').
Proof.
  apply (decode_keeps_validity_as_written wf_SubjectDescription wf_Extension
           wf_PublicKey backwards_half_second_certificate
           (encode backwards_half_second_certificate)).
  - writable_by_evaluation.
  - reflexivity.
Defined.

(** The certificate with another name and other data around the same
    members. *)
Definition renamed_certificate : PlainCertificate :=
  mkCertificate ["bob"] [x00] TYPE_LINK
    may_2014 july_2017 [subject_alice] some_key [critical_extension].

(** An object that holds the encoding of [alice_certificate] and decoded
    members of its own. *)
Definition stale_certificate : PlainCertificate :=
  mkCertificate [] (getContent (encode alice_certificate)) TYPE_KEY
    july_2017 may_2014 [subject_alice; subject_alice] PublicKey_default
    [critical_extension; critical_extension].

Definition empty_certificate : PlainCertificate :=
  Certificate_default PublicKey_default.

Definition padded_certificate : PlainCertificate :=
  mkCertificate [] (getContent (encode alice_certificate) ++ [x00; x01])
    TYPE_KEY TimePoint_max TimePoint_min [] PublicKey_default [].

Lemma decode_rejects_non_sequence_witness :
  decode empty_certificate = (empty_certificate, inl BERDecodeErr).
Proof.
  apply (decode_rejects_non_sequence empty_certificate). discriminate.
Defined.

Lemma decode_determined_by_content_witness :
  snd (decode (encode alice_certificate)) = snd (decode stale_certificate)
  /\ (snd (decode (encode alice_certificate)) = inr tt ->
      m_notBefore (fst (decode (encode alice_certificate)))
      = m_notBefore (fst (decode stale_certificate))
      /\ m_notAfter (fst (decode (encode alice_certificate)))
         = m_notAfter (fst (decode stale_certificate))
      /\ m_subjectDescriptionList (fst (decode (encode alice_certificate)))
         = m_subjectDescriptionList (fst (decode stale_certificate))
      /\ m_key (fst (decode (encode alice_certificate)))
         = m_key (fst (decode stale_certificate))
      /\ m_extensionList (fst (decode (encode alice_certificate)))
         = m_extensionList (fst (decode stale_certificate))).
Proof.
  apply (decode_determined_by_content (encode alice_certificate)
           stale_certificate).
  reflexivity.
Defined.

Lemma decode_ignores_trailing_bytes_witness :
  exists d', decode padded_certificate = (d', inr tt)
    /\ m_notBefore d' = may_2014
    /\ m_notAfter d' = july_2017
    /\ m_subjectDescriptionList d' = [subject_alice]
    /\ m_key d' = some_key
    /\ m_extensionList d' = [critical_extension].
Proof.
  apply (decode_ignores_trailing_bytes wf_SubjectDescription wf_Extension
           wf_PublicKey alice_certificate padded_certificate [x00; x01]).
  - in_schema_by_evaluation.
  - reflexivity.
Defined.

Lemma encode_injective_witness :
  m_notBefore alice_certificate = m_notBefore renamed_certificate
  /\ m_notAfter alice_certificate = m_notAfter renamed_certificate
  /\ m_subjectDescriptionList alice_certificate
     = m_subjectDescriptionList renamed_certificate
  /\ m_key alice_certificate = m_key renamed_certificate
  /\ m_extensionList alice_certificate
     = m_extensionList renamed_certificate.
Proof.
  apply (encode_injective wf_SubjectDescription wf_Extension wf_PublicKey
           alice_certificate renamed_certificate).
  - in_schema_by_evaluation.
  - in_schema_by_evaluation.
  - reflexivity.
Defined.

Lemma Certificate_of_Data_encode_witness :
  Certificate_of_Data PublicKey_default ["bob"]
    (getContent (encode alice_certificate)) TYPE_KEY
  = inr (mkCertificate ["bob"] (getContent (encode alice_certificate))
           TYPE_KEY may_2014 july_2017 [subject_alice] some_key
           [critical_extension]).
Proof.
  apply (Certificate_of_Data_encode wf_SubjectDescription wf_Extension
           wf_PublicKey PublicKey_default alice_certificate ["bob"]
           TYPE_KEY).
  in_schema_by_evaluation.
Defined.

End CertScenarios.

(** ** Names *)
Module NameFacts.
Import NdnName.

Lemma append_nil_l (t : string) : "" +:+ t = t.
Proof. reflexivity. Qed.

Lemma append_cons (a : ascii) (s t : string) :
  String a s +:+ t = String a (s +:+ t).
Proof. reflexivity. Qed.

Lemma append_empty_r (s : string) : s +:+ "" = s.
Proof. induction s; rewrite ?append_cons; [reflexivity|congruence]. Qed.

Lemma append_assoc (a b c : string) : (a +:+ b) +:+ c = a +:+ (b +:+ c).
Proof. induction a; rewrite ?append_cons, ?append_nil_l; congruence. Qed.

Lemma split_uri_component c : forall cur rest,
  slash_free c = true ->
  split_uri cur (c +:+ rest) = split_uri (cur +:+ c) rest.
Proof.
  induction c as [|a c IH]; intros cur rest Hc.
  - now rewrite append_empty_r.
  - simpl in Hc. apply andb_true_iff in Hc as [Ha Hc].
    rewrite append_cons. cbn [split_uri].
    destruct (is_slash a); [discriminate|].
    rewrite IH by assumption. rewrite append_assoc.
    now rewrite append_cons, append_nil_l.
Qed.

Lemma split_uri_slash cur rest :
  split_uri cur ("/" +:+ rest)
  = if bool_decide (cur = "") then split_uri "" rest
    else cur :: split_uri "" rest.
Proof. reflexivity. Qed.

Lemma split_uri_components n :
  plain_name n -> split_uri "" (uri_of_components n) = n.
Proof.
  induction 1 as [|c n [Hne Hsf] Hn IH]; [reflexivity|].
  cbn [uri_of_components]. rewrite split_uri_slash.
  rewrite bool_decide_true by reflexivity.
  rewrite split_uri_component by assumption. rewrite append_nil_l.
  destruct n as [|c' n]; cbn [uri_of_components] in *.
  - cbn [split_uri]. now rewrite bool_decide_false by assumption.
  - rewrite split_uri_slash in *.
    rewrite bool_decide_false by assumption.
    rewrite bool_decide_true in IH by reflexivity. now f_equal.
Qed.

(** A plain name is read back from its URI. *)
Lemma Name_of_uri_toUri n : plain_name n -> Name_of_uri (toUri n) = n.
Proof.
  intros Hn. unfold Name_of_uri, toUri. destruct n; [reflexivity|].
  now apply split_uri_components.
Qed.
End NameFacts.

(** ** The in-memory store *)
Module StoreFacts.
Import NdnName Store.

(** A certificate as the store sees it: its name, the name of the key it
    certifies and the key it carries. *)
Record SampleCertificate := mkSample {
  sample_name : Name;
  sample_keyName : Name;
  sample_keyInfo : list byte }.

Definition alice : Name := ["alice"].
Definition alice_key : Name := ["alice"; "KEY1"].
Definition alice_cert : Name := ["alice"; "KEY1"; "ID-CERT"; "1"].

Section Memory.
Context {PublicKey IdentityCertificate : Type}.
Variable getName : IdentityCertificate -> Name.
Variable getPublicKeyName : IdentityCertificate -> Name.
Variable getPublicKeyInfo : IdentityCertificate -> PublicKey.

Abbreviation store := (SecPublicInfoMemory PublicKey IdentityCertificate).
Abbreviation addCertificate :=
  (addCertificate getName getPublicKeyName getPublicKeyInfo).

Lemma found_spec uri (l : list string) : found uri l = true <-> uri ∈ l.
Proof. unfold found. apply bool_decide_eq_true. Qed.

Lemma addIdentity_exists n (st : store) :
  doesIdentityExist n (addIdentity n st) = true.
Proof.
  unfold addIdentity, doesIdentityExist.
  destruct (found (toUri n) (m_identityStore st)) eqn:E; [exact E|].
  apply found_spec. cbn. set_solver.
Qed.

Lemma addIdentity_keeps n m (st : store) :
  doesIdentityExist n st = true ->
  doesIdentityExist n (addIdentity m st) = true.
Proof.
  unfold addIdentity, doesIdentityExist. intros H.
  destruct (found (toUri m) _); [exact H|].
  apply found_spec in H. apply found_spec. cbn. set_solver.
Qed.

Lemma addPublicKey_identity k ty pk (st : store) :
  doesIdentityExist (getPrefix_m1 k) (addPublicKey k ty pk st) = true.
Proof. apply (addIdentity_exists (getPrefix_m1 k) st). Qed.

(** C4, as amended: after [addPublicKey] and [addCertificate] the
    certificate exists, the identity exists without [addIdentity] having
    been called, and [getPublicKey] returns the key that the certificate
    carries (the record written by [addPublicKey] is overwritten). *)
Theorem addCertificate_scenario (ty : KeyType) (K : PublicKey)
    (cert : IdentityCertificate) :
  getName cert = alice_cert ->
  getPublicKeyName cert = alice_key ->
  let st := addCertificate cert (addPublicKey alice_key ty K empty_store) in
  doesCertificateExist alice_cert st = true
  /\ getPublicKey alice_key st = (st, inr (getPublicKeyInfo cert))
  /\ doesIdentityExist alice st = true.
Proof.
  intros Hn Hk st. subst st. unfold Store.addCertificate.
  rewrite Hn, Hk. split; [|split].
  - unfold doesCertificateExist. cbn [m_certificateStore].
    apply bool_decide_eq_true. rewrite lookup_insert_eq. eauto.
  - unfold getPublicKey at 1. cbn [m_keyStore addPublicKey].
    now rewrite lookup_insert_eq.
  - reflexivity.
Qed.

(** C5: after [setDefaultIdentityInternal n] the default identity reads
    back as [n] when the identity existed at that moment, and as the
    empty name otherwise. *)
Theorem setDefaultIdentity_readback (st : store) (n : Name) :
  plain_name n ->
  getDefaultIdentity (setDefaultIdentityInternal n st)
  = if doesIdentityExist n st then n else [].
Proof.
  intros Hn. unfold getDefaultIdentity, setDefaultIdentityInternal,
    doesIdentityExist. cbn [m_defaultIdentity].
  destruct (found (toUri n) (m_identityStore st)); [|reflexivity].
  now apply NameFacts.Name_of_uri_toUri.
Qed.

(** C9: [getPublicKey] returns the stored key exactly when
    [doesPublicKeyExist] holds and throws exactly when it does not; the
    same for [getCertificate] and [doesCertificateExist]; neither call
    changes the store. *)
Theorem lookup_agrees_with_exists (st : store) (k c : Name) :
  (doesPublicKeyExist k st = true <->
     exists r, m_keyStore st !! toUri k = Some r
               /\ getPublicKey k st = (st, inr (getKey r)))
  /\ (doesPublicKeyExist k st = false <->
     exists e, getPublicKey k st = (st, inl e))
  /\ (doesCertificateExist c st = true <->
     exists r, m_certificateStore st !! toUri c = Some r
               /\ getCertificate c st = (st, inr r))
  /\ (doesCertificateExist c st = false <->
     exists e, getCertificate c st = (st, inl e))
  /\ fst (getPublicKey k st) = st
  /\ fst (getCertificate c st) = st.
Proof.
  unfold doesPublicKeyExist, doesCertificateExist, getPublicKey,
    getCertificate.
  rewrite !bool_decide_eq_true, !bool_decide_eq_false.
  destruct (m_keyStore st !! toUri k) as [r|];
    destruct (m_certificateStore st !! toUri c) as [r'|]; cbn [fst].
  all: repeat apply conj; try reflexivity.
  all: try (intros _; eauto; fail).
  all: try (intros [? [? ?]]; discriminate).
  all: try (intros [? ?]; discriminate).
  all: try (intros [? ?]; eauto; fail).
  all: try (intros _; apply is_Some_None).
  all: try (intros H; destruct H; eauto; discriminate).
Qed.

(** C10: the default-key and default-certificate accessors do not look at
    their argument; each returns the one name the store holds. *)
Theorem default_accessors_ignore_argument (st : store) (a b : Name) :
  getDefaultKeyNameForIdentity a st = getDefaultKeyNameForIdentity b st
  /\ getDefaultCertificateNameForKey a st
     = getDefaultCertificateNameForKey b st
  /\ getDefaultKeyNameForIdentity a st = m_defaultKeyName st
  /\ getDefaultCertificateNameForKey a st = m_defaultCert st.
Proof. repeat split. Qed.
End Memory.

Abbreviation sample_store := (SecPublicInfoMemory (list byte) SampleCertificate).
Abbreviation sample_add :=
  (addCertificate sample_name sample_keyName sample_keyInfo).

Definition K1 : list byte := [x01].
Definition K2 : list byte := [x02].
Definition cert_of_K2 : SampleCertificate := mkSample alice_cert alice_key K2.

(** C4 as stated fails when the certificate carries a key other than [K]:
    the key record is overwritten by [addCertificate]. *)
Lemma addCertificate_overwrites_key :
  sample_name cert_of_K2 = alice_cert
  /\ sample_keyName cert_of_K2 = alice_key
  /\ snd (getPublicKey alice_key
            (sample_add cert_of_K2
               (addPublicKey alice_key KEY_TYPE_RSA K1 empty_store)))
     = inr K2
  /\ K2 <> K1.
Proof. repeat split. discriminate. Qed.

Lemma addCertificate_scenario_witness :
  let st := sample_add cert_of_K2
              (addPublicKey alice_key KEY_TYPE_RSA K1 empty_store) in
  doesCertificateExist alice_cert st = true
  /\ getPublicKey alice_key st = (st, inr K2)
  /\ doesIdentityExist alice st = true.
Proof.
  exact (addCertificate_scenario sample_name sample_keyName sample_keyInfo
           KEY_TYPE_RSA K1 cert_of_K2 eq_refl eq_refl).
Defined.

Lemma setDefaultIdentity_readback_witness :
  getDefaultIdentity
    (setDefaultIdentityInternal alice
       (addIdentity alice (empty_store : sample_store)))
  = alice.
Proof.
  apply (setDefaultIdentity_readback
           (addIdentity alice (empty_store : sample_store)) alice).
  repeat constructor; discriminate.
Defined.

(** C6: the setters for the default key and the default certificate store
    any name, also one the store has no entry for; only the default
    identity is checked against the store. *)
Theorem default_setters_do_not_check :
  let st1 := setDefaultKeyNameForIdentityInternal alice_key
               (empty_store : sample_store) in
  let st2 := setDefaultCertificateNameForKeyInternal alice_cert
               (empty_store : sample_store) in
  doesPublicKeyExist alice_key st1 = false
  /\ getDefaultKeyNameForIdentity alice st1 = alice_key
  /\ doesCertificateExist alice_cert st2 = false
  /\ getDefaultCertificateNameForKey alice_key st2 = alice_cert
  /\ getDefaultIdentity
       (setDefaultIdentityInternal alice (empty_store : sample_store)) = [].
Proof. repeat split. Qed.
End StoreFacts.

(** ** The in-memory store over sequences of calls *)
Module StoreRuns.
Import NdnName Store StoreFacts.

Section Memory.
Context {PublicKey IdentityCertificate : Type}.
Variable getName : IdentityCertificate -> Name.
Variable getPublicKeyName : IdentityCertificate -> Name.
Variable getPublicKeyInfo : IdentityCertificate -> PublicKey.

Abbreviation store := (SecPublicInfoMemory PublicKey IdentityCertificate).
Abbreviation addCertificate :=
  (addCertificate getName getPublicKeyName getPublicKeyInfo).

(** The members that write to the store. *)
Inductive Call :=
| CallAddIdentity (identityName : Name)
| CallAddPublicKey (keyName : Name) (keyType : KeyType)
    (publicKey : PublicKey)
| CallAddCertificate (certificate : IdentityCertificate)
| CallSetDefaultIdentity (identityName : Name)
| CallSetDefaultKeyName (keyName : Name)
| CallSetDefaultCertificate (certificateName : Name).

Definition call (st : store) (c : Call) : store :=
  match c with
  | CallAddIdentity n => addIdentity n st
  | CallAddPublicKey k ty pk => addPublicKey k ty pk st
  | CallAddCertificate cert => addCertificate cert st
  | CallSetDefaultIdentity n => setDefaultIdentityInternal n st
  | CallSetDefaultKeyName k => setDefaultKeyNameForIdentityInternal k st
  | CallSetDefaultCertificate c =>
      setDefaultCertificateNameForKeyInternal c st
  end.

(** The store after a sequence of calls, first call first. *)
Definition calls (cs : list Call) (st : store) : store :=
  fold_left call cs st.

(** Every certificate held has a key record under its key name and its
    identity in the identity list. *)
Definition certificates_backed (st : store) : Prop :=
  forall uri cert,
    m_certificateStore st !! uri = Some cert ->
    is_Some (m_keyStore st !! toUri (getPublicKeyName cert))
    /\ toUri (getPrefix_m1 (getPublicKeyName cert)) ∈ m_identityStore st.

(** The default identity is unset or names an identity of the list. *)
Definition default_identity_listed (st : store) : Prop :=
  m_defaultIdentity st = "" \/ m_defaultIdentity st ∈ m_identityStore st.

(** *** Single calls *)

Lemma addIdentity_identities n (st : store) uri :
  uri ∈ m_identityStore (addIdentity n st)
  <-> uri ∈ m_identityStore st \/ uri = toUri n.
Proof.
  unfold addIdentity. destruct (found _ _) eqn:E; cbn [m_identityStore].
  - apply found_spec in E. split; [auto|]. now intros [H | ->].
  - rewrite elem_of_app, list_elem_of_singleton. reflexivity.
Qed.

Lemma addIdentity_others n (st : store) :
  m_keyStore (addIdentity n st) = m_keyStore st
  /\ m_certificateStore (addIdentity n st) = m_certificateStore st
  /\ m_defaultIdentity (addIdentity n st) = m_defaultIdentity st
  /\ m_defaultKeyName (addIdentity n st) = m_defaultKeyName st
  /\ m_defaultCert (addIdentity n st) = m_defaultCert st.
Proof. unfold addIdentity. now destruct (found _ _). Qed.

Lemma addIdentity_NoDup n (st : store) :
  NoDup (m_identityStore st) -> NoDup (m_identityStore (addIdentity n st)).
Proof.
  intros Hst. unfold addIdentity. destruct (found _ _) eqn:E; [exact Hst|].
  cbn [m_identityStore]. apply NoDup_app. split; [exact Hst|].
  split; [|apply NoDup_singleton].
  intros uri Hin Huri. apply list_elem_of_singleton in Huri. subst uri.
  apply found_spec in Hin. congruence.
Qed.

(** What a call does to the identity list, the key table and the
    certificate table: it only adds. *)
Lemma call_grows (c : Call) (st : store) :
  (forall uri, uri ∈ m_identityStore st -> uri ∈ m_identityStore (call st c))
  /\ (forall uri, is_Some (m_keyStore st !! uri) ->
                  is_Some (m_keyStore (call st c) !! uri))
  /\ (forall uri, is_Some (m_certificateStore st !! uri) ->
                  is_Some (m_certificateStore (call st c) !! uri)).
Proof.
  destruct c as [n|k ty pk|cert|n|k|cn]; cbn [call].
  - pose proof (addIdentity_others n st) as (-> & -> & _).
    repeat split; auto. intros uri H. apply addIdentity_identities. auto.
  - unfold addPublicKey. cbn [m_identityStore m_keyStore m_certificateStore].
    pose proof (addIdentity_others (getPrefix_m1 k) st) as (-> & -> & _).
    repeat split; auto.
    + intros uri H. apply addIdentity_identities. auto.
    + intros uri H. rewrite lookup_insert. case_decide; eauto.
  - unfold Store.addCertificate, addPublicKey.
    cbn [m_identityStore m_keyStore m_certificateStore].
    pose proof (addIdentity_others
                  (getPrefix_m1 (getPublicKeyName cert))
                  (addIdentity (getPrefix_m1 (getPublicKeyName cert)) st))
      as (-> & -> & _).
    pose proof (addIdentity_others (getPrefix_m1 (getPublicKeyName cert)) st)
      as (-> & -> & _).
    repeat split.
    + intros uri H. do 2 apply addIdentity_identities, or_introl. exact H.
    + intros uri H. rewrite lookup_insert. case_decide; eauto.
    + intros uri H. rewrite lookup_insert. case_decide; eauto.
  - repeat split; auto.
  - repeat split; auto.
  - repeat split; auto.
Qed.

Lemma calls_grow (cs : list Call) : forall (st : store),
  (forall uri, uri ∈ m_identityStore st -> uri ∈ m_identityStore (calls cs st))
  /\ (forall uri, is_Some (m_keyStore st !! uri) ->
                  is_Some (m_keyStore (calls cs st) !! uri))
  /\ (forall uri, is_Some (m_certificateStore st !! uri) ->
                  is_Some (m_certificateStore (calls cs st) !! uri)).
Proof.
  induction cs as [|c cs IH]; intros st; [now cbn|].
  cbn [calls fold_left]. destruct (IH (call st c)) as (I1 & I2 & I3).
  destruct (call_grows c st) as (C1 & C2 & C3).
  repeat split; intros uri H; [apply I1, C1|apply I2, C2|apply I3, C3]; exact H.
Qed.

Lemma call_keeps_NoDup (c : Call) (st : store) :
  NoDup (m_identityStore st) -> NoDup (m_identityStore (call st c)).
Proof.
  intros H. destruct c as [n|k ty pk|cert|n|k|cn]; cbn [call]; auto.
  - now apply addIdentity_NoDup.
  - unfold addPublicKey. cbn [m_identityStore]. now apply addIdentity_NoDup.
  - unfold Store.addCertificate, addPublicKey. cbn [m_identityStore].
    now do 2 apply addIdentity_NoDup.
Qed.

Lemma call_keeps_default_listed (c : Call) (st : store) :
  default_identity_listed st -> default_identity_listed (call st c).
Proof.
  unfold default_identity_listed. intros H.
  destruct (call_grows c st) as (Hgrow & _).
  destruct c as [n|k ty pk|cert|n|k|cn]; cbn [call] in *; auto.
  - pose proof (addIdentity_others n st) as (_ & _ & -> & _).
    destruct H; auto.
  - unfold addPublicKey in *. cbn [m_identityStore m_defaultIdentity] in *.
    pose proof (addIdentity_others (getPrefix_m1 k) st) as (_ & _ & -> & _).
    destruct H; auto.
  - unfold Store.addCertificate, addPublicKey in *.
    cbn [m_identityStore m_defaultIdentity] in *.
    pose proof (addIdentity_others
                  (getPrefix_m1 (getPublicKeyName cert))
                  (addIdentity (getPrefix_m1 (getPublicKeyName cert)) st))
      as (_ & _ & -> & _).
    pose proof (addIdentity_others (getPrefix_m1 (getPublicKeyName cert)) st)
      as (_ & _ & -> & _).
    destruct H; auto.
  - unfold setDefaultIdentityInternal. cbn [m_defaultIdentity m_identityStore].
    destruct (found _ _) eqn:E; [right; now apply found_spec|now left].
Qed.

Lemma call_keeps_certificates_backed (c : Call) (st : store) :
  certificates_backed st -> certificates_backed (call st c).
Proof.
  intros H uri cert Hcert.
  destruct (call_grows c st) as (Hids & Hkeys & _).
  assert (Hold : m_certificateStore st !! uri = Some cert ->
                 is_Some (m_keyStore (call st c)
                            !! toUri (getPublicKeyName cert))
                 /\ toUri (getPrefix_m1 (getPublicKeyName cert))
                    ∈ m_identityStore (call st c)).
  { intros Hst. destruct (H uri cert Hst). split; auto. }
  destruct c as [n|k ty pk|cert'|n|k|cn]; cbn [call] in *; auto.
  - apply Hold. now pose proof (addIdentity_others n st) as (_ & <- & _).
  - apply Hold. unfold addPublicKey in Hcert. cbn [m_certificateStore] in Hcert.
    now pose proof (addIdentity_others (getPrefix_m1 k) st) as (_ & <- & _).
  - unfold Store.addCertificate in Hcert at 1.
    cbn [m_certificateStore] in Hcert.
    rewrite lookup_insert in Hcert. case_decide as Huri.
    + injection Hcert as <-. clear Hold.
      unfold Store.addCertificate, addPublicKey.
      cbn [m_keyStore m_identityStore]. split.
      * rewrite lookup_insert_eq. eauto.
      * apply addIdentity_identities, or_introl.
        apply addIdentity_identities. now right.
    + apply Hold. unfold addPublicKey in Hcert.
      cbn [m_certificateStore] in Hcert.
      pose proof (addIdentity_others
                    (getPrefix_m1 (getPublicKeyName cert'))
                    (addIdentity (getPrefix_m1 (getPublicKeyName cert')) st))
        as (_ & E1 & _).
      pose proof (addIdentity_others
                    (getPrefix_m1 (getPublicKeyName cert')) st)
        as (_ & E2 & _).
      now rewrite E1, E2 in Hcert.
Qed.

Lemma calls_keep (P : store -> Prop) :
  (forall c st, P st -> P (call st c)) ->
  forall cs st, P st -> P (calls cs st).
Proof.
  intros Hstep cs. induction cs as [|c cs IH]; intros st Hst; [exact Hst|].
  cbn [calls fold_left]. apply IH, Hstep, Hst.
Qed.

(** *** Properties of the store beyond the specification's *)

(** X1: whatever the store held, after [addCertificate] the certificate is
    returned by [getCertificate] under its name, [getPublicKey] under its
    key name returns the key it carries, recorded as an RSA key, and the
    identity of the key exists. *)
Theorem addCertificate_then_lookups (cert : IdentityCertificate)
    (st : store) :
  let st' := addCertificate cert st in
  getCertificate (getName cert) st' = (st', inr cert)
  /\ doesCertificateExist (getName cert) st' = true
  /\ getPublicKey (getPublicKeyName cert) st'
     = (st', inr (getPublicKeyInfo cert))
  /\ m_keyStore st' !! toUri (getPublicKeyName cert)
     = Some (mkKeyRecord KEY_TYPE_RSA (getPublicKeyInfo cert))
  /\ doesPublicKeyExist (getPublicKeyName cert) st' = true
  /\ doesIdentityExist (getPrefix_m1 (getPublicKeyName cert)) st' = true.
Proof.
  intros st'.
  assert (Hc : m_certificateStore st' !! toUri (getName cert) = Some cert)
    by apply lookup_insert_eq.
  assert (Hk : m_keyStore st' !! toUri (getPublicKeyName cert)
               = Some (mkKeyRecord KEY_TYPE_RSA (getPublicKeyInfo cert)))
    by apply lookup_insert_eq.
  unfold getCertificate, doesCertificateExist, getPublicKey,
    doesPublicKeyExist. rewrite Hc, Hk. cbn [getKey].
  repeat split; try (apply bool_decide_eq_true; eauto; fail).
  subst st'. unfold doesIdentityExist, Store.addCertificate, addPublicKey.
  cbn [m_identityStore]. apply found_spec.
  apply addIdentity_identities, or_introl.
  apply addIdentity_identities. now right.
Qed.

(** X2: after [addPublicKey], [getPublicKey] returns the key added, also
    when another key was stored under that name before; the identity of
    the key exists; keys under other URIs, the certificates and the three
    defaults are as before. *)
Theorem addPublicKey_then_lookups (keyName : Name) (keyType : KeyType)
    (publicKey : PublicKey) (st : store) :
  let st' := addPublicKey keyName keyType publicKey st in
  getPublicKey keyName st' = (st', inr publicKey)
  /\ doesPublicKeyExist keyName st' = true
  /\ doesIdentityExist (getPrefix_m1 keyName) st' = true
  /\ (forall other, toUri other <> toUri keyName ->
        snd (getPublicKey other st') = snd (getPublicKey other st)
        /\ doesPublicKeyExist other st' = doesPublicKeyExist other st)
  /\ m_certificateStore st' = m_certificateStore st
  /\ m_defaultIdentity st' = m_defaultIdentity st
  /\ m_defaultKeyName st' = m_defaultKeyName st
  /\ m_defaultCert st' = m_defaultCert st.
Proof.
  intros st'.
  pose proof (addIdentity_others (getPrefix_m1 keyName) st)
    as (Ek & Ec & Ed & Edk & Edc).
  assert (Hk : m_keyStore st' !! toUri keyName
               = Some (mkKeyRecord keyType publicKey))
    by apply lookup_insert_eq.
  split; [unfold getPublicKey; now rewrite Hk|].
  split; [unfold doesPublicKeyExist; rewrite Hk;
          apply bool_decide_eq_true; eauto|].
  split; [apply addPublicKey_identity|].
  split; [|now repeat split].
  intros other Hother.
  assert (Ho : m_keyStore st' !! toUri other = m_keyStore st !! toUri other).
  { subst st'. unfold addPublicKey. cbn [m_keyStore].
    rewrite lookup_insert_ne by congruence. now rewrite Ek. }
  unfold getPublicKey, doesPublicKeyExist. rewrite Ho.
  split; [now destruct (m_keyStore st !! toUri other)|reflexivity].
Qed.

(** X3: [addIdentity] of an identity that exists leaves the store as it
    is, so adding twice is adding once; and in every store reached from the
    empty one no URI is in the identity list twice. *)
Theorem identity_list_without_duplicates (cs : list Call) (n : Name)
    (st : store) :
  (doesIdentityExist n st = true -> addIdentity n st = st)
  /\ addIdentity n (addIdentity n st) = addIdentity n st
  /\ NoDup (m_identityStore (calls cs empty_store)).
Proof.
  assert (Hsame : forall st' : store,
            doesIdentityExist n st' = true -> addIdentity n st' = st').
  { intros st'. unfold doesIdentityExist, addIdentity. now intros ->. }
  split; [apply Hsame|]. split.
  - apply Hsame, addIdentity_exists.
  - apply (calls_keep (fun st => NoDup (m_identityStore st)));
      [apply call_keeps_NoDup|constructor].
Qed.

(** X4: the writing members only add: an identity, a key or a certificate
    that exists still exists after any sequence of calls. *)
Theorem calls_keep_existence (cs : list Call) (st : store)
    (identityName keyName certificateName : Name) :
  (doesIdentityExist identityName st = true ->
   doesIdentityExist identityName (calls cs st) = true)
  /\ (doesPublicKeyExist keyName st = true ->
      doesPublicKeyExist keyName (calls cs st) = true)
  /\ (doesCertificateExist certificateName st = true ->
      doesCertificateExist certificateName (calls cs st) = true).
Proof.
  destruct (calls_grow cs st) as (H1 & H2 & H3).
  unfold doesIdentityExist, doesPublicKeyExist, doesCertificateExist.
  rewrite !found_spec, !bool_decide_eq_true. auto.
Qed.

(** X5: in every store reached from the empty one the default identity is
    unset or is an identity that exists. *)
Theorem default_identity_exists (cs : list Call) :
  let st := calls cs empty_store in
  m_defaultIdentity st = ""
  \/ found (m_defaultIdentity st) (m_identityStore st) = true.
Proof.
  intros st. rewrite found_spec.
  apply (calls_keep default_identity_listed);
    [apply call_keeps_default_listed|now left].
Qed.

(** X6: in every store reached from the empty one, each certificate held
    has its key and its identity in the store: [getPublicKey] under the
    certificate's key name does not throw. *)
Theorem certificates_have_keys (cs : list Call) (certificateName : Name)
    (cert : IdentityCertificate) :
  let st := calls cs empty_store in
  getCertificate certificateName st = (st, inr cert) ->
  doesPublicKeyExist (getPublicKeyName cert) st = true
  /\ doesIdentityExist (getPrefix_m1 (getPublicKeyName cert)) st = true
  /\ exists key, getPublicKey (getPublicKeyName cert) st = (st, inr key).
Proof.
  intros st Hget.
  assert (Hinv : certificates_backed st).
  { apply (calls_keep certificates_backed);
      [apply call_keeps_certificates_backed|].
    intros uri c Hc. cbn in Hc. now rewrite lookup_empty in Hc. }
  unfold getCertificate in Hget.
  destruct (m_certificateStore st !! toUri certificateName) as [c|] eqn:Ec;
    [|discriminate].
  injection Hget as ->.
  destruct (Hinv _ _ Ec) as [[r Hr] Hid].
  unfold doesPublicKeyExist, doesIdentityExist, getPublicKey. rewrite Hr.
  split; [apply bool_decide_eq_true; eauto|].
  split; [now apply found_spec|eauto].
Qed.

End Memory.

Lemma certificates_have_keys_witness :
  let st := calls sample_name sample_keyName sample_keyInfo
              [CallAddPublicKey alice_key KEY_TYPE_RSA K1;
               CallAddCertificate cert_of_K2;
               CallSetDefaultIdentity alice]
              empty_store in
  doesPublicKeyExist alice_key st = true
  /\ doesIdentityExist alice st = true
  /\ exists key, getPublicKey alice_key st = (st, inr key).
Proof.
  apply (certificates_have_keys sample_name sample_keyName sample_keyInfo
           [CallAddPublicKey alice_key KEY_TYPE_RSA K1;
            CallAddCertificate cert_of_K2;
            CallSetDefaultIdentity alice]
           alice_cert cert_of_K2).
  reflexivity.
Defined.

End StoreRuns.

(** ** The always-accept validator *)
Module NullPolicyFacts.
Import NullPolicy.

(** C7, as amended: for an item that a shared pointer owns, [checkPolicy]
    of [ValidatorNull] returns, does to the world what one call of the
    success continuation on a pointer to the item does, and leaves
    [nextSteps] as it was; with continuations that record their calls,
    the record gains one [Validated] entry for the item and no
    [ValidationFailed] entry.  For an item that no shared pointer owns,
    [shared_from_this()] throws: no continuation is called, and the world
    and [nextSteps] are as they were. *)
Theorem checkPolicy_accepts {Data Interest ValidationRequest W : Type}
    (data : Object Data) (interest : Object Interest) (nSteps : Z)
    (onData onDataFailed : shared_ptr Data -> W -> W)
    (onInterest onInterestFailed : shared_ptr Interest -> W -> W)
    (nextSteps : list ValidationRequest) (w : W)
    (dlog : list (Event Data)) (ilog : list (Event Interest)) :
  ((0 < use_count data)%nat ->
   checkPolicy_Data data nSteps onData onDataFailed nextSteps w
   = (onData (mk_shared_ptr data) w, nextSteps, inr tt)
   /\ checkPolicy_Data data nSteps log_validated log_failed nextSteps dlog
      = (dlog ++ [Validated (mk_shared_ptr data)], nextSteps, inr tt))
  /\ ((0 < use_count interest)%nat ->
      checkPolicy_Interest interest nSteps onInterest onInterestFailed
        nextSteps w
      = (onInterest (mk_shared_ptr interest) w, nextSteps, inr tt)
      /\ checkPolicy_Interest interest nSteps log_validated log_failed
           nextSteps ilog
         = (ilog ++ [Validated (mk_shared_ptr interest)], nextSteps,
            inr tt))
  /\ (use_count data = 0%nat ->
      checkPolicy_Data data nSteps onData onDataFailed nextSteps w
      = (w, nextSteps, inl bad_weak_ptr))
  /\ (use_count interest = 0%nat ->
      checkPolicy_Interest interest nSteps onInterest onInterestFailed
        nextSteps w
      = (w, nextSteps, inl bad_weak_ptr)).
Proof.
  unfold checkPolicy_Data, checkPolicy_Interest, shared_from_this.
  split; [|split; [|split]]; intros Hcount.
  - destruct (use_count data); [lia|]. now split.
  - destruct (use_count interest); [lia|]. now split.
  - now rewrite Hcount.
  - now rewrite Hcount.
Qed.

(** A data item held by value, and the same item made by [make_shared]. *)
Definition data_on_stack : Object string := mkObject "/alice/data" 0.
Definition data_shared : Object string := mkObject "/alice/data" 1.

(** C7 as stated fails: for a data item that no shared pointer owns
    [checkPolicy] throws, and the success continuation is not called. *)
Lemma checkPolicy_throws_for_unowned :
  checkPolicy_Data (ValidationRequest := unit) data_on_stack 0
    log_validated log_failed [] []
  = ([], [], inl bad_weak_ptr).
Proof. reflexivity. Qed.

Lemma checkPolicy_accepts_witness :
  checkPolicy_Data (ValidationRequest := unit) data_shared 0
    log_validated log_failed [] []
  = ([Validated (mk_shared_ptr data_shared)], [], inr tt).
Proof.
  refine (proj2 (proj1 (checkPolicy_accepts (Interest := string)
            data_shared data_shared 0 log_validated log_failed
            log_validated log_failed [] [] [] []) _)).
  cbn. lia.
Defined.
End NullPolicyFacts.
